(** * advection2D.c: a shallow embedding and its properties

    The program advects a Gaussian [u(x,y)] on a rectangular grid with an
    explicit first-order upwind scheme.  Everything happens in [main]: the
    grid spacing and the time step are derived from constants, the two axes
    and the initial field are filled by loops, a time loop applies boundary
    values, computes [dudt] and updates [u], and three files are written.

    The embedding follows the source statement by statement.

    - C's [float] and [double] are IEEE-754 binary32 and binary64.  Their
      operations are those of the standard library's [SpecFloat] (round to
      nearest, ties to even), each C operation rounded once in the type C
      gives it after the usual arithmetic conversions.
    - [log], [logf] and [exp] come from the C mathematical library, which
      is not part of the program: they are section variables.
    - arrays are lists, written by index;  the OpenMP pragmas are read as
      the sequential loops they annotate.
    - sizes and loop counters are natural numbers: the [int] arithmetic of
      the program ([NX+2], [i-1] with [i >= 1]) neither overflows nor goes
      negative.
    - [fprintf] to a file appends a row of numbers to a list;  the [%g]
      rendering of a number and the report printed on the console (lines
      80-87) are left out. *)

From Stdlib Require Import ZArith Bool List Lia QArith Qabs.
From Stdlib Require Import Floats.SpecFloat.
From stdpp Require Import base option list.

Local Open Scope nat_scope.

(** ** Floating-point formats *)

(** A value of either format.  The two C types share the representation
    and differ in the precision their operations round to. *)
Abbreviation float := spec_float (only parsing).
Abbreviation double := spec_float (only parsing).

Section Format.
Variables prec emax : Z.

(** Conversion of a value to the format [prec], [emax]: exact when the
    value fits, rounded to nearest otherwise. *)
Definition convert (v : spec_float) : spec_float :=
  match v with
  | S754_finite s m e => binary_round prec emax s m e
  | _ => v
  end.

(** Conversion of a C [int]. *)
Definition of_Z (n : Z) : spec_float := binary_normalize prec emax n 0 false.
End Format.

Module F32.
Definition prec : Z := 24.
Definition emax : Z := 128.
Definition add : float -> float -> float := SFadd prec emax.
Definition sub : float -> float -> float := SFsub prec emax.
Definition mul : float -> float -> float := SFmul prec emax.
Definition div : float -> float -> float := SFdiv prec emax.
Definition of_int (n : Z) : float := of_Z prec emax n.
Definition of_double (d : double) : float := convert prec emax d.
(** [a > b], [a <= b] and [a == b] of C: false on a NaN. *)
Definition gt (a b : float) : bool := SFltb b a.
Definition le (a b : float) : bool := SFleb a b.
Definition eq (a b : float) : bool := SFeqb a b.
End F32.

Module F64.
Definition prec : Z := 53.
Definition emax : Z := 1024.
Definition add : double -> double -> double := SFadd prec emax.
Definition sub : double -> double -> double := SFsub prec emax.
Definition mul : double -> double -> double := SFmul prec emax.
Definition div : double -> double -> double := SFdiv prec emax.
Definition of_int (n : Z) : double := of_Z prec emax n.
Definition of_float (f : float) : double := convert prec emax f.
(** [fabs] of <math.h>: clears the sign. *)
Definition fabs : double -> double := SFabs.
(** A decimal constant [n / 10^k] of type [double], correctly rounded
    (numerator and denominator are exact below [2^53]). *)
Definition dec (n : Z) (k : nat) : double :=
  div (of_int n) (of_int (10 ^ Z.of_nat k)).
End F64.

(** Classification used in the statements. *)
Definition is_zero (v : spec_float) : bool :=
  match v with S754_zero _ => true | _ => false end.

Definition is_finite (v : spec_float) : bool :=
  match v with S754_zero _ | S754_finite _ _ _ => true | _ => false end.

Definition is_nan (v : spec_float) : bool :=
  match v with S754_nan => true | _ => false end.

(** The rational a finite value denotes (0 for the others). *)
Definition SF2Q (v : spec_float) : Q :=
  match v with
  | S754_finite s m e =>
      let a := if s then Zneg m else Zpos m in
      match e with
      | Z0 => inject_Z a
      | Zpos p => inject_Z (a * 2 ^ Zpos p)
      | Zneg p => Qmake a (2 ^ p)
      end
  | _ => 0%Q
  end.

(** ** Arrays *)

Abbreviation array := (list float) (only parsing).
Abbreviation grid := (list (list float)) (only parsing).

(** [a[i]] and [a[i] = v].  An index outside the array is outside C's
    semantics; the model reads a NaN there and drops the write.  The
    theorems state the shapes under which no access is out of range. *)
Definition rd (a : array) (i : nat) : float := default S754_nan (a !! i).
Definition wr (a : array) (i : nat) (v : float) : array := <[i := v]> a.

Definition row (g : grid) (i : nat) : array := default [] (g !! i).
Definition rd2 (g : grid) (i j : nat) : float := rd (row g i) j.
Definition wr2 (g : grid) (i j : nat) (v : float) : grid :=
  <[i := wr (row g i) j v]> g.

(** [for (int i = lo; i < hi; i++) body] over a state of type [A]. *)
Definition for_loop {A : Type} (lo hi : nat) (body : nat -> A -> A) (s : A) : A :=
  fold_left (fun acc i => body i acc) (seq lo (hi - lo)) s.

(** [(float) i] for a loop index. *)
Definition idx (i : nat) : float := F32.of_int (Z.of_nat i).

(** ** Configuration: the constants of [main] *)

Record Config : Type := {
  NX : nat;  NY : nat;
  xmin : float;  xmax : float;  ymin : float;  ymax : float;
  x0 : float;  y0 : float;  sigmax : float;  sigmay : float;
  bval_left : float;  bval_right : float;
  bval_lower : float;  bval_upper : float;
  CFL : float;  nsteps : nat;
  velx : float;  vely : float
}.

Definition sigmax2 (c : Config) : float := F32.mul (sigmax c) (sigmax c).
Definition sigmay2 (c : Config) : float := F32.mul (sigmay c) (sigmay c).

(** [const float v = n / 10^k;] a decimal constant stored in a [float]. *)
Definition flit (n : Z) (k : nat) : float := F32.of_double (F64.dec n k).

(** The values the source gives the constants. *)
Definition source_config : Config := {|
  NX := 1000;  NY := 1000;
  xmin := flit 0 1;  xmax := flit 300 1;
  ymin := flit 0 1;  ymax := flit 300 1;
  x0 := flit 30 1;  y0 := flit 150 1;
  sigmax := flit 10 1;  sigmay := flit 50 1;
  bval_left := flit 0 1;  bval_right := flit 0 1;
  bval_lower := flit 0 1;  bval_upper := flit 0 1;
  CFL := flit 9 1;  nsteps := 800;
  velx := flit 10 1;  vely := flit 0 1
|}.

(** ** Program state: the variables [main] assigns *)

Record Vars : Type := {
  x : array;          (* float x[NX+2] *)
  y : array;          (* float y[NX+2] *)
  u : grid;           (* float u[NX+2][NY+2] *)
  dudt : grid;        (* float dudt[NX+2][NY+2] *)
  dx : float;
  dy : float;
  dt : float
}.

(** The shapes the declarations give the arrays.  [y] is declared with
    [NX+2] elements, like [x]. *)
Definition grid_shape (nx ny : nat) (g : grid) : Prop :=
  length g = nx + 2 /\ Forall (fun r => length r = ny + 2) g.

Record declared (c : Config) (s : Vars) : Prop := {
  decl_x : length (x s) = NX c + 2;
  decl_y : length (y s) = NX c + 2;
  decl_u : grid_shape (NX c) (NY c) (u s);
  decl_dudt : grid_shape (NX c) (NY c) (dudt s)
}.

(** ** The program *)

Section Program.
(** <math.h> *)
Variable log : double -> double.
Variable logf : float -> float.
Variable exp : double -> double.

(** *** Set-up (lines 71-114) *)

(** [(max - min) / ((float) N)], lines 71 and 72. *)
Definition spacing (lo hi : float) (n : nat) : float :=
  F32.div (F32.sub hi lo) (idx n).

(** The constant [0.2/0.41] of lines 77 and 158, a [double]. *)
Definition kappa_ratio : double := F64.div (F64.dec 2 1) (F64.dec 41 2).

(** Line 77: the time step from the CFL condition, computed in
    [double] and stored in a [float]. *)
Definition cfl_dt (c : Config) (dx dy : float) : float :=
  F32.of_double
    (F64.div (F64.of_float (CFL c))
       (F64.add
          (F64.div
             (F64.fabs
                (F64.mul kappa_ratio
                   (log (F64.div (F64.of_float (ymax c)) (F64.dec 10 1)))))
             (F64.of_float dx))
          (F64.div (F64.fabs (F64.of_float (vely c))) (F64.of_float dy)))).

Definition set_steps (c : Config) (s : Vars) : Vars :=
  let dx := spacing (xmin c) (xmax c) (NX c) in
  let dy := spacing (ymin c) (ymax c) (NY c) in
  {| x := x s; y := y s; u := u s; dudt := dudt s;
     dx := dx; dy := dy; dt := cfl_dt c dx dy |}.

(** [((float) i - 0.5) * d], the middle of cell [i] (lines 94, 102):
    [0.5] is a [double], so the expression is evaluated in [double]
    and rounded when stored. *)
Definition centre (i : nat) (d : float) : float :=
  F32.of_double
    (F64.mul (F64.sub (F64.of_float (idx i)) (F64.dec 5 1)) (F64.of_float d)).

(** LOOP 1 and LOOP 2. *)
Definition fill_axis (n : nat) (d : float) (a : array) : array :=
  for_loop 0 (n + 2) (fun i a => wr a i (centre i d)) a.

(** The body of LOOP 3 (lines 110-112). *)
Definition gaussian (c : Config) (xi yj : float) : float :=
  let x2 := F32.mul (F32.sub xi (x0 c)) (F32.sub xi (x0 c)) in
  let y2 := F32.mul (F32.sub yj (y0 c)) (F32.sub yj (y0 c)) in
  F32.of_double
    (exp
       (F64.mul (SFopp (F64.dec 10 1))
          (F64.add
             (F64.div (F64.of_float x2)
                (F64.mul (F64.dec 20 1) (F64.of_float (sigmax2 c))))
             (F64.div (F64.of_float y2)
                (F64.mul (F64.dec 20 1) (F64.of_float (sigmay2 c))))))).

(** LOOP 3. *)
Definition init_u (c : Config) (xs ys : array) (g : grid) : grid :=
  for_loop 0 (NX c + 2) (fun i g =>
    for_loop 0 (NY c + 2) (fun j g =>
      wr2 g i j (gaussian c (rd xs i) (rd ys j))) g) g.

Definition initialise (c : Config) (s : Vars) : Vars :=
  let s := set_steps c s in
  let xs := fill_axis (NX c) (dx s) (x s) in
  let ys := fill_axis (NY c) (dy s) (y s) in
  {| x := xs; y := ys; u := init_u c xs ys (u s); dudt := dudt s;
     dx := dx s; dy := dy s; dt := dt s |}.

(** *** One time step (lines 132-175) *)

(** LOOP 6: boundary values at [u[0][:]] and [u[NX+1][:]]. *)
Definition loop6 (c : Config) (g : grid) : grid :=
  for_loop 0 (NY c + 2) (fun j g =>
    wr2 (wr2 g 0 j (bval_left c)) (NX c + 1) j (bval_right c)) g.

(** LOOP 7: boundary values at [u[:][0]] and [u[:][NY+1]]. *)
Definition loop7 (c : Config) (g : grid) : grid :=
  for_loop 0 (NX c + 2) (fun i g =>
    wr2 (wr2 g i 0 (bval_lower c)) i (NY c + 1) (bval_upper c)) g.

(** The body of LOOP 8 (lines 155-163): the value stored in
    [dudt[i][j]]. *)
Definition dudt_cell (c : Config) (dx dy : float) (g : grid) (i j : nat) : float :=
  let y := F32.mul (idx j) dy in
  if F32.gt y (F32.of_int 1) then
    let Vx :=
      F32.of_double
        (F64.mul kappa_ratio
           (F64.of_float
              (logf (F32.of_double (F64.div (F64.of_float y) (F64.dec 10 1)))))) in
    F32.mul (F32.of_int (-1))
      (F32.add
         (F32.div (F32.mul Vx (F32.sub (rd2 g i j) (rd2 g (i - 1) j))) dx)
         (F32.div (F32.mul (vely c) (F32.sub (rd2 g i j) (rd2 g i (j - 1)))) dy))
  else
    F32.mul (F32.of_int (-1))
      (F32.add
         (F32.div (F32.mul (F32.of_int 0) (F32.sub (rd2 g i j) (rd2 g (i - 1) j))) dx)
         (F32.div (F32.mul (vely c) (F32.sub (rd2 g i j) (rd2 g i (j - 1)))) dy)).

(** LOOP 8: the rate of change at the points of the domain. *)
Definition loop8 (c : Config) (dx dy : float) (g : grid) (d : grid) : grid :=
  for_loop 1 (NX c + 1) (fun i d =>
    for_loop 1 (NY c + 1) (fun j d =>
      wr2 d i j (dudt_cell c dx dy g i j)) d) d.

(** LOOP 9: [u] from [t] to [t+dt]. *)
Definition loop9 (c : Config) (dt : float) (d : grid) (g : grid) : grid :=
  for_loop 1 (NX c + 1) (fun i g =>
    for_loop 1 (NY c + 1) (fun j g =>
      wr2 g i j (F32.add (rd2 g i j) (F32.mul (rd2 d i j) dt))) g) g.

(** The boundary phase, LOOP 6 then LOOP 7. *)
Definition apply_boundaries (c : Config) (g : grid) : grid :=
  loop7 c (loop6 c g).

(** The body of LOOP 5. *)
Definition step (c : Config) (s : Vars) : Vars :=
  let u1 := apply_boundaries c (u s) in
  let d := loop8 c (dx s) (dy s) u1 (dudt s) in
  let u2 := loop9 c (dt s) d u1 in
  {| x := x s; y := y s; u := u2; dudt := d;
     dx := dx s; dy := dy s; dt := dt s |}.

(** LOOP 5 run for [n] steps. *)
Definition time_loop (c : Config) (n : nat) (s : Vars) : Vars :=
  for_loop 0 n (fun _ s => step c s) s.

(** *** Output (lines 116-126, 178-208) *)

(** LOOP 4 and LOOP 10: one row [x[i] y[j] u[i][j]] per point. *)
Definition snapshot (c : Config) (s : Vars) : list (float * float * float) :=
  for_loop 0 (NX c + 2) (fun i file =>
    for_loop 0 (NY c + 2) (fun j file =>
      file ++ [(rd (x s) i, rd (y s) j, rd2 (u s) i j)]) file) [].

(** The inner loop of LOOP 11 and line 205. *)
Definition yAvg (c : Config) (g : grid) (i : nat) : float :=
  let movingSum :=
    for_loop 0 (NY c + 2) (fun j acc => F32.add acc (rd2 g i j)) (F32.of_int 0) in
  F32.div movingSum (idx (NY c)).

(** LOOP 11: one row [x[i] yAvg] per [i]. *)
Definition averages (c : Config) (s : Vars) : list (float * float) :=
  for_loop 0 (NX c + 2) (fun i file =>
    file ++ [(rd (x s) i, yAvg c (u s) i)]) [].

Record Files : Type := {
  initial_dat : list (float * float * float);
  final_dat : list (float * float * float);
  average_dat : list (float * float)
}.

(** [main], from the memory [s] it finds its arrays in. *)
Definition main (c : Config) (s : Vars) : Vars * Files :=
  let s0 := initialise c s in
  let s1 := time_loop c (nsteps c) s0 in
  (s1, {| initial_dat := snapshot c s0;
          final_dat := snapshot c s1;
          average_dat := averages c s1 |}).

End Program.

(** ** Reference definitions, in the words of the specification *)

(** [g] with every cell [(i,j)], [li <= i < hi] and [lj <= j < hj],
    replaced by [f i j] of its value, all cells at once. *)
Definition map_cells (li hi lj hj : nat) (f : nat -> nat -> float -> float)
    (g : grid) : grid :=
  imap (fun i r =>
    if decide (li <= i < hi)
    then imap (fun j v => if decide (lj <= j < hj) then f i j v else v) r
    else r) g.

Section Reference.
Variable logf : float -> float.

(** The velocity field model: [(0.2/0.41) * ln(y / 1.0)] above the
    threshold [1], and [0] otherwise. *)
Definition streamwiseVelocity (y : float) : float :=
  if F32.gt y (F32.of_int 1) then
    F32.of_double
      (F64.mul kappa_ratio
         (F64.of_float
            (logf (F32.of_double (F64.div (F64.of_float y) (F64.dec 10 1))))))
  else F32.of_int 0.

(** [-( v * (u[i][j] - u[i-1][j]) / dx + vely * (u[i][j] - u[i][j-1]) / dy )],
    the backward difference in both directions. *)
Definition upwind (c : Config) (dx dy v : float) (g : grid) (i j : nat) : float :=
  F32.mul (F32.of_int (-1))
    (F32.add
       (F32.div (F32.mul v (F32.sub (rd2 g i j) (rd2 g (i - 1) j))) dx)
       (F32.div (F32.mul (vely c) (F32.sub (rd2 g i j) (rd2 g i (j - 1)))) dy)).

(** Phase one: every interior [dudt[i][j]] from the same field [g]. *)
Definition derivative_phase (c : Config) (dx dy : float) (g d : grid) : grid :=
  map_cells 1 (NX c + 1) 1 (NY c + 1)
    (fun i j _ => upwind c dx dy (streamwiseVelocity (F32.mul (idx j) dy)) g i j) d.

(** Phase two: [u[i][j] += dudt[i][j] * dt] at every interior point. *)
Definition update_phase (c : Config) (dt : float) (d g : grid) : grid :=
  map_cells 1 (NX c + 1) 1 (NY c + 1)
    (fun i j v => F32.add v (F32.mul (rd2 d i j) dt)) g.

(** One step of the two-phase scheme on the field the boundary phase
    leaves. *)
Definition step_two_phase (c : Config) (s : Vars) : Vars :=
  let ub := apply_boundaries c (u s) in
  let d := derivative_phase c (dx s) (dy s) ub (dudt s) in
  {| x := x s; y := y s; u := update_phase c (dt s) d ub; dudt := d;
     dx := dx s; dy := dy s; dt := dt s |}.
End Reference.

(** ** Concrete inputs

    Small configurations and memories on which the statements below are
    evaluated.  The theorems hold for every [log], [logf] and [exp]; where
    one is instantiated, [log] and [logf] are replaced by their tangent at
    [1] and [exp] by its tangent at [0]. *)

Definition logf_tangent (v : float) : float := F32.sub v (F32.of_int 1).
Definition log_tangent (v : double) : double := F64.sub v (F64.of_int 1).
Definition exp_tangent (v : double) : double := F64.add (F64.of_int 1) v.

(** A 2 x 2 domain with four different boundary values;  [dy = 2], so
    the rows [j = 1, 2] lie above the velocity threshold. *)
Definition demo_config : Config := {|
  NX := 2;  NY := 2;
  xmin := flit 0 1;  xmax := flit 40 1;
  ymin := flit 0 1;  ymax := flit 40 1;
  x0 := flit 10 1;  y0 := flit 20 1;
  sigmax := flit 10 1;  sigmay := flit 10 1;
  bval_left := flit 10 1;  bval_right := flit 20 1;
  bval_lower := flit 30 1;  bval_upper := flit 40 1;
  CFL := flit 9 1;  nsteps := 2;
  velx := flit 10 1;  vely := flit 5 1
|}.

(** The same with no time step. *)
Definition idle_config : Config := {|
  NX := 2;  NY := 2;
  xmin := flit 0 1;  xmax := flit 40 1;
  ymin := flit 0 1;  ymax := flit 40 1;
  x0 := flit 10 1;  y0 := flit 20 1;
  sigmax := flit 10 1;  sigmay := flit 10 1;
  bval_left := flit 10 1;  bval_right := flit 20 1;
  bval_lower := flit 30 1;  bval_upper := flit 40 1;
  CFL := flit 9 1;  nsteps := 0;
  velx := flit 10 1;  vely := flit 5 1
|}.

(** [u[i][j] = 4 i + j + 5], an unwritten [dudt]. *)
Definition demo_vars : Vars := {|
  x := replicate 4 S754_nan;
  y := replicate 4 S754_nan;
  u := map (fun i => map (fun j => F32.of_int (Z.of_nat (4 * i + j + 5))) (seq 0 4))
         (seq 0 4);
  dudt := replicate 4 (replicate 4 S754_nan);
  dx := flit 20 1;
  dy := flit 20 1;
  dt := flit 25 2
|}.

(** Memory of the declared shapes with nothing written yet. *)
Definition blank_vars (c : Config) : Vars := {|
  x := replicate (NX c + 2) S754_nan;
  y := replicate (NX c + 2) S754_nan;
  u := replicate (NX c + 2) (replicate (NY c + 2) S754_nan);
  dudt := replicate (NX c + 2) (replicate (NY c + 2) S754_nan);
  dx := S754_nan;  dy := S754_nan;  dt := S754_nan
|}.

(** The [double] nearest to [ln 30], [0x1.b35a6f90bd69bp+1]. *)
Definition ln30 : double := S754_finite false 7658815630333595 (-51).

(** [log] on the one argument the source configuration passes it. *)
Definition log_of_30 (v : double) : double := ln30.

(** The smallest positive [float], [2^-149]. *)
Definition min_subnormal : float := S754_finite false 1 (-149).

(** A domain of two cells between [0] and [2^-149] in each direction. *)
Definition tiny_config : Config := {|
  NX := 2;  NY := 2;
  xmin := flit 0 1;  xmax := min_subnormal;
  ymin := flit 0 1;  ymax := min_subnormal;
  x0 := flit 0 1;  y0 := flit 0 1;
  sigmax := flit 10 1;  sigmay := flit 10 1;
  bval_left := flit 0 1;  bval_right := flit 0 1;
  bval_lower := flit 0 1;  bval_upper := flit 0 1;
  CFL := flit 9 1;  nsteps := 1;
  velx := flit 10 1;  vely := flit 0 1
|}.

(** A 2 x 2 domain on [0,1] x [0,1], below the velocity threshold, with
    no cross-stream velocity and zero boundary values. *)
Definition calm_config : Config := {|
  NX := 2;  NY := 2;
  xmin := flit 0 1;  xmax := flit 10 1;
  ymin := flit 0 1;  ymax := flit 10 1;
  x0 := flit 5 1;  y0 := flit 5 1;
  sigmax := flit 10 1;  sigmay := flit 10 1;
  bval_left := flit 0 1;  bval_right := flit 0 1;
  bval_lower := flit 0 1;  bval_upper := flit 0 1;
  CFL := flit 9 1;  nsteps := 3;
  velx := flit 10 1;  vely := flit 0 1
|}.

(** The field [1.0] everywhere, ghost cells included. *)
Definition calm_vars : Vars := {|
  x := replicate 4 S754_nan;
  y := replicate 4 S754_nan;
  u := replicate 4 (replicate 4 (flit 10 1));
  dudt := replicate 4 (replicate 4 S754_nan);
  dx := flit 5 1;
  dy := flit 5 1;
  dt := flit 1 1
|}.

(** ** Equality of values

    [a == b] of C for values that are not NaN: the same value, or two
    zeros of any sign. *)
Definition same_value (a b : float) : Prop :=
  a = b \/ (is_zero a = true /\ is_zero b = true).

(** [demo_config] with other values at the right and upper boundaries. *)
Definition demo_config_far : Config := {|
  NX := 2;  NY := 2;
  xmin := flit 0 1;  xmax := flit 40 1;
  ymin := flit 0 1;  ymax := flit 40 1;
  x0 := flit 10 1;  y0 := flit 20 1;
  sigmax := flit 10 1;  sigmay := flit 10 1;
  bval_left := flit 10 1;  bval_right := flit 70 1;
  bval_lower := flit 30 1;  bval_upper := flit 80 1;
  CFL := flit 9 1;  nsteps := 2;
  velx := flit 10 1;  vely := flit 5 1
|}.

(** A 2 x 2 domain whose four boundary values are [1.0], with a
    cross-stream velocity, and the field [1.0] on it with [dy = 2]. *)
Definition flat_config : Config := {|
  NX := 2;  NY := 2;
  xmin := flit 0 1;  xmax := flit 40 1;
  ymin := flit 0 1;  ymax := flit 40 1;
  x0 := flit 10 1;  y0 := flit 20 1;
  sigmax := flit 10 1;  sigmay := flit 10 1;
  bval_left := flit 10 1;  bval_right := flit 10 1;
  bval_lower := flit 10 1;  bval_upper := flit 10 1;
  CFL := flit 9 1;  nsteps := 2;
  velx := flit 10 1;  vely := flit 5 1
|}.

Definition flat_vars : Vars := {|
  x := replicate 4 S754_nan;
  y := replicate 4 S754_nan;
  u := replicate 4 (replicate 4 (flit 10 1));
  dudt := replicate 4 (replicate 4 S754_nan);
  dx := flit 20 1;
  dy := flit 20 1;
  dt := flit 25 2
|}.

(** A 2 x 3 domain with no cross-stream velocity and [dy = 0.5]: the rows
    [j = 1, 2] lie at [0.5] and [1.0], not above the threshold, the row
    [j = 3] at [1.5] above it. *)
Definition shear_config : Config := {|
  NX := 2;  NY := 3;
  xmin := flit 0 1;  xmax := flit 10 1;
  ymin := flit 0 1;  ymax := flit 15 1;
  x0 := flit 5 1;  y0 := flit 5 1;
  sigmax := flit 10 1;  sigmay := flit 10 1;
  bval_left := flit 0 1;  bval_right := flit 0 1;
  bval_lower := flit 0 1;  bval_upper := flit 0 1;
  CFL := flit 9 1;  nsteps := 2;
  velx := flit 10 1;  vely := flit 0 1
|}.

Definition shear_vars : Vars := {|
  x := replicate 4 S754_nan;
  y := replicate 4 S754_nan;
  u := map (fun i => map (fun j => F32.of_int (Z.of_nat (5 * i + j + 1))) (seq 0 5))
         (seq 0 4);
  dudt := replicate 4 (replicate 5 S754_nan);
  dx := flit 5 1;
  dy := flit 5 1;
  dt := flit 1 1
|}.

(** ** Iteration order

    The loops under [#pragma omp parallel for] leave the order of their
    iterations to the schedule.  [in_order js body] runs the iterations
    in the order [js];  the loop [for (i = lo; i < hi; i++)] is
    [in_order (seq lo (hi - lo))]. *)
Definition in_order {I A : Type} (js : list I) (body : I -> A -> A) (s : A) : A :=
  fold_left (fun acc i => body i acc) js s.

(** The iterations [(i, j)] of two nested loops under [collapse(2)], in
    the order of the sequential nest. *)
Definition iteration_space (li hi lj hj : nat) : list (nat * nat) :=
  list_prod (seq li (hi - li)) (seq lj (hj - lj)).

(** ** Array bounds

    C does not check an index.  The checked accesses fail where the
    index lies outside the array, and the checked program is [main] with
    every array access checked;  it fails as soon as one access is out of
    bounds. *)
Definition rd_checked (a : array) (i : nat) : option float := a !! i.

Definition wr_checked (a : array) (i : nat) (v : float) : option array :=
  if decide (i < length a) then Some (wr a i v) else None.

Definition rd2_checked (g : grid) (i j : nat) : option float :=
  r ← g !! i; rd_checked r j.

Definition wr2_checked (g : grid) (i j : nat) (v : float) : option grid :=
  r ← g !! i; r' ← wr_checked r j v; Some (<[i := r']> g).

Definition for_loop_checked {A : Type} (lo hi : nat) (body : nat -> A -> option A)
    (s : A) : option A :=
  fold_left (fun acc i => acc ≫= body i) (seq lo (hi - lo)) (Some s).

(** The value LOOP 8 stores in [dudt[i][j]] (lines 155-163), from the
    three cells it reads. *)
Definition dudt_value (logf : float -> float) (c : Config) (dx dy : float)
    (j : nat) (a al ad : float) : float :=
  let y := F32.mul (idx j) dy in
  if F32.gt y (F32.of_int 1) then
    let Vx :=
      F32.of_double
        (F64.mul kappa_ratio
           (F64.of_float
              (logf (F32.of_double (F64.div (F64.of_float y) (F64.dec 10 1)))))) in
    F32.mul (F32.of_int (-1))
      (F32.add (F32.div (F32.mul Vx (F32.sub a al)) dx)
               (F32.div (F32.mul (vely c) (F32.sub a ad)) dy))
  else
    F32.mul (F32.of_int (-1))
      (F32.add (F32.div (F32.mul (F32.of_int 0) (F32.sub a al)) dx)
               (F32.div (F32.mul (vely c) (F32.sub a ad)) dy)).

Section Checked.
Variable log : double -> double.
Variable logf : float -> float.
Variable exp : double -> double.

(** LOOP 1 and LOOP 2. *)
Definition fill_axis_checked (n : nat) (d : float) (a : array) : option array :=
  for_loop_checked 0 (n + 2) (fun i a => wr_checked a i (centre i d)) a.

(** LOOP 3. *)
Definition init_u_checked (c : Config) (xs ys : array) (g : grid) : option grid :=
  for_loop_checked 0 (NX c + 2) (fun i g =>
    for_loop_checked 0 (NY c + 2) (fun j g =>
      xi ← rd_checked xs i;
      yj ← rd_checked ys j;
      wr2_checked g i j (gaussian exp c xi yj)) g) g.

Definition initialise_checked (c : Config) (s : Vars) : option Vars :=
  let s := set_steps log c s in
  xs ← fill_axis_checked (NX c) (dx s) (x s);
  ys ← fill_axis_checked (NY c) (dy s) (y s);
  g ← init_u_checked c xs ys (u s);
  Some {| x := xs; y := ys; u := g; dudt := dudt s;
          dx := dx s; dy := dy s; dt := dt s |}.

(** LOOP 6 and LOOP 7. *)
Definition loop6_checked (c : Config) (g : grid) : option grid :=
  for_loop_checked 0 (NY c + 2) (fun j g =>
    g ← wr2_checked g 0 j (bval_left c);
    wr2_checked g (NX c + 1) j (bval_right c)) g.

Definition loop7_checked (c : Config) (g : grid) : option grid :=
  for_loop_checked 0 (NX c + 2) (fun i g =>
    g ← wr2_checked g i 0 (bval_lower c);
    wr2_checked g i (NY c + 1) (bval_upper c)) g.

(** LOOP 8;  its loops start at 1, so [i - 1] and [j - 1] are the
    indices of the C expressions. *)
Definition loop8_checked (c : Config) (dx dy : float) (g : grid) (d : grid)
    : option grid :=
  for_loop_checked 1 (NX c + 1) (fun i d =>
    for_loop_checked 1 (NY c + 1) (fun j d =>
      a ← rd2_checked g i j;
      al ← rd2_checked g (i - 1) j;
      ad ← rd2_checked g i (j - 1);
      wr2_checked d i j (dudt_value logf c dx dy j a al ad)) d) d.

(** LOOP 9. *)
Definition loop9_checked (c : Config) (dt : float) (d : grid) (g : grid)
    : option grid :=
  for_loop_checked 1 (NX c + 1) (fun i g =>
    for_loop_checked 1 (NY c + 1) (fun j g =>
      a ← rd2_checked g i j;
      r ← rd2_checked d i j;
      wr2_checked g i j (F32.add a (F32.mul r dt))) g) g.

(** The body of LOOP 5, and LOOP 5. *)
Definition step_checked (c : Config) (s : Vars) : option Vars :=
  u1 ← loop6_checked c (u s);
  u1 ← loop7_checked c u1;
  d ← loop8_checked c (dx s) (dy s) u1 (dudt s);
  u2 ← loop9_checked c (dt s) d u1;
  Some {| x := x s; y := y s; u := u2; dudt := d;
          dx := dx s; dy := dy s; dt := dt s |}.

Definition time_loop_checked (c : Config) (n : nat) (s : Vars) : option Vars :=
  for_loop_checked 0 n (fun _ s => step_checked c s) s.

(** LOOP 4 and LOOP 10. *)
Definition snapshot_checked (c : Config) (s : Vars)
    : option (list (float * float * float)) :=
  for_loop_checked 0 (NX c + 2) (fun i file =>
    for_loop_checked 0 (NY c + 2) (fun j file =>
      xi ← rd_checked (x s) i;
      yj ← rd_checked (y s) j;
      v ← rd2_checked (u s) i j;
      Some (file ++ [(xi, yj, v)])) file) [].

(** LOOP 11. *)
Definition yAvg_checked (c : Config) (g : grid) (i : nat) : option float :=
  movingSum ←
    for_loop_checked 0 (NY c + 2) (fun j acc =>
      v ← rd2_checked g i j; Some (F32.add acc v)) (F32.of_int 0);
  Some (F32.div movingSum (idx (NY c))).

Definition averages_checked (c : Config) (s : Vars) : option (list (float * float)) :=
  for_loop_checked 0 (NX c + 2) (fun i file =>
    a ← yAvg_checked c (u s) i;
    xi ← rd_checked (x s) i;
    Some (file ++ [(xi, a)])) [].

Definition main_checked (c : Config) (s : Vars) : option (Vars * Files) :=
  s0 ← initialise_checked c s;
  f0 ← snapshot_checked c s0;
  s1 ← time_loop_checked c (nsteps c) s0;
  f1 ← snapshot_checked c s1;
  av ← averages_checked c s1;
  Some (s1, {| initial_dat := f0; final_dat := f1; average_dat := av |}).
End Checked.

(** ** The report (lines 80-87)

    The arguments of the eight [printf] calls, in order;  a [float]
    passed to [printf] is promoted to [double]. *)
Inductive printed : Type :=
  | Pg (v : double)   (* %g *)
  | Pd (n : Z).       (* %d *)

Definition report (c : Config) (s : Vars) : list printed :=
  [ Pg (F64.of_float (dx s));
    Pg (F64.of_float (dy s));
    Pg (F64.of_float (CFL c));
    Pg (F64.of_float (dt s));
    Pd (Z.of_nat (nsteps c));
    Pg (F64.of_float (F32.mul (dt s) (idx (nsteps c))));
    Pg (F64.of_float (F32.mul (F32.mul (velx c) (dt s)) (idx (nsteps c))));
    Pg (F64.of_float (F32.mul (F32.mul (vely c) (dt s)) (idx (nsteps c)))) ].

(** What [main] prints: the report on [dx], [dy] and [dt] of lines
    71-77. *)
Definition console (log : double -> double) (c : Config) (s : Vars) : list printed :=
  report c (set_steps log c s).

(** The configuration with another value for the constant [velx]. *)
Definition with_velx (v : float) (c : Config) : Config := {|
  NX := NX c;  NY := NY c;
  xmin := xmin c;  xmax := xmax c;  ymin := ymin c;  ymax := ymax c;
  x0 := x0 c;  y0 := y0 c;  sigmax := sigmax c;  sigmay := sigmay c;
  bval_left := bval_left c;  bval_right := bval_right c;
  bval_lower := bval_lower c;  bval_upper := bval_upper c;
  CFL := CFL c;  nsteps := nsteps c;
  velx := v;  vely := vely c
|}.

(** A 2 x 2 domain with widths [sigmax = 4], [sigmay = 2], the centre
    [(2, 1)] away from the cell centres, and zero lower and upper
    boundary values;  [dx = dy = 2]. *)
Definition gauss_config : Config := {|
  NX := 2;  NY := 2;
  xmin := flit 0 1;  xmax := flit 40 1;
  ymin := flit 0 1;  ymax := flit 40 1;
  x0 := flit 20 1;  y0 := flit 10 1;
  sigmax := flit 40 1;  sigmay := flit 20 1;
  bval_left := flit 10 1;  bval_right := flit 0 1;
  bval_lower := flit 0 1;  bval_upper := flit 0 1;
  CFL := flit 9 1;  nsteps := 2;
  velx := flit 10 1;  vely := flit 5 1
|}.

(** ** Loops *)

Section Loops.
Context {A : Type}.
Implicit Types (b : nat -> A -> A) (s : A).

Lemma for_loop_ge lo hi b s : hi <= lo -> for_loop lo hi b s = s.
Proof.
  intros H. unfold for_loop. replace (hi - lo) with 0 by lia. reflexivity.
Qed.

Lemma for_loop_snoc lo hi b s :
  lo <= hi -> for_loop lo (S hi) b s = b hi (for_loop lo hi b s).
Proof.
  intros H. unfold for_loop.
  replace (S hi - lo) with (S (hi - lo)) by lia.
  rewrite seq_S, fold_left_app. simpl.
  replace (lo + (hi - lo)) with hi by lia. reflexivity.
Qed.

Lemma for_loop_ext lo hi b b' s :
  (forall i t, lo <= i < hi -> b i t = b' i t) ->
  for_loop lo hi b s = for_loop lo hi b' s.
Proof.
  induction hi as [|h IH]; intros E.
  - rewrite !for_loop_ge by lia. reflexivity.
  - destruct (le_lt_dec lo h) as [L|L].
    + rewrite !for_loop_snoc by lia. rewrite IH by (intros; apply E; lia).
      apply E. lia.
    + rewrite !for_loop_ge by lia. reflexivity.
Qed.

(** Invariant rule. *)
Lemma for_loop_inv (P : nat -> A -> Prop) lo hi b s :
  lo <= hi -> P lo s ->
  (forall i t, lo <= i < hi -> P i t -> P (S i) (b i t)) ->
  P hi (for_loop lo hi b s).
Proof.
  induction hi as [|h IH]; intros L H0 Hs.
  - assert (lo = 0) by lia; subst. rewrite for_loop_ge by lia. exact H0.
  - destruct (decide (lo = S h)) as [->|N].
    + rewrite for_loop_ge by lia. exact H0.
    + rewrite for_loop_snoc by lia. apply Hs; [lia|].
      apply IH; [lia|exact H0|]. intros; apply Hs; [lia|assumption].
Qed.

End Loops.

(** ** Array writes *)

(** Case analysis on the index tests of a goal. *)
Ltac index_cases := repeat case_decide; solve [reflexivity | lia | congruence].

Lemma imap_same {A : Type} (l : list A) : imap (fun _ v => v) l = l.
Proof.
  apply list_eq; intros k. rewrite list_lookup_imap.
  destruct (l !! k); reflexivity.
Qed.

(** A loop that rewrites element [i] of a list from its own value is a
    map over the index range. *)
Lemma for_loop_insert {A : Type} (d : A) lo hi (f : nat -> A -> A) (l : list A) :
  for_loop lo hi (fun i l => <[i := f i (default d (l !! i))]> l) l
  = imap (fun k v => if decide (lo <= k < hi) then f k v else v) l.
Proof.
  induction hi as [|h IH].
  - rewrite for_loop_ge by lia. rewrite <- (imap_same l) at 1.
    apply imap_ext; intros k v _. destruct (decide _); [lia|reflexivity].
  - destruct (le_lt_dec lo h) as [L|L].
    + rewrite for_loop_snoc by lia. rewrite IH. clear IH.
      apply list_eq; intros k. rewrite !list_lookup_imap.
      destruct (decide (k = h)) as [->|N].
      * destruct (l !! h) as [v|] eqn:E.
        -- rewrite list_lookup_insert_eq
             by (rewrite length_imap; eapply lookup_lt_Some; eassumption).
           simpl.
           destruct (decide (lo <= h < h)); [lia|].
           destruct (decide (lo <= h < S h)); [reflexivity|lia].
        -- rewrite list_insert_ge
             by (rewrite length_imap; apply lookup_ge_None; assumption).
           rewrite list_lookup_imap, E. reflexivity.
      * rewrite list_lookup_insert_ne by congruence.
        rewrite list_lookup_imap. destruct (l !! k) as [v|]; [|reflexivity].
        simpl. destruct (decide (lo <= k < h)), (decide (lo <= k < S h));
          try reflexivity; lia.
    + rewrite for_loop_ge by lia. rewrite <- (imap_same l) at 1.
      apply imap_ext; intros k v _. destruct (decide _); [lia|reflexivity].
Qed.

Lemma row_insert (g : grid) i r :
  i < length g -> row (<[i := r]> g) i = r.
Proof. intros H. unfold row. rewrite list_lookup_insert_eq by assumption. reflexivity. Qed.

Lemma insert_row (g : grid) i : <[i := row g i]> g = g.
Proof.
  unfold row. destruct (g !! i) as [r|] eqn:E.
  - apply list_insert_id. assumption.
  - apply list_insert_ge. apply lookup_ge_None. assumption.
Qed.

(** A loop over the columns of row [i] rewrites that row. *)
Lemma for_loop_row (g : grid) i lo hi (f : nat -> float -> float) :
  for_loop lo hi (fun j g => wr2 g i j (f j (rd2 g i j))) g
  = <[i := for_loop lo hi (fun j r => wr r j (f j (rd r j))) (row g i)]> g.
Proof.
  induction hi as [|h IH].
  - rewrite !for_loop_ge by lia. symmetry. apply insert_row.
  - destruct (le_lt_dec lo h) as [L|L].
    + rewrite !for_loop_snoc by lia. rewrite IH. clear IH.
      set (r := for_loop lo h _ (row g i)).
      unfold wr2, rd2. destruct (le_lt_dec (length g) i) as [G|G].
      * rewrite !(list_insert_ge g) by assumption. reflexivity.
      * rewrite row_insert by assumption. apply list_insert_insert_eq.
    + rewrite !for_loop_ge by lia. symmetry. apply insert_row.
Qed.

(** The nested loops of the program are maps over their index ranges:
    each iteration reads only the cell it writes. *)
Lemma nested_loops_map li hi lj hj (f : nat -> nat -> float -> float) (g : grid) :
  for_loop li hi (fun i g =>
    for_loop lj hj (fun j g => wr2 g i j (f i j (rd2 g i j))) g) g
  = map_cells li hi lj hj f g.
Proof.
  pose (F := fun i (r : array) =>
    imap (fun j v => if decide (lj <= j < hj) then f i j v else v) r).
  transitivity
    (for_loop li hi (fun i (l : grid) => <[i := F i (default [] (l !! i))]> l) g).
  - apply for_loop_ext. intros i t _. rewrite for_loop_row.
    unfold wr, rd. rewrite (for_loop_insert S754_nan). reflexivity.
  - rewrite (for_loop_insert [] li hi F). reflexivity.
Qed.

(** Reading a map over cells. *)
Lemma rd2_map_cells li hi lj hj f (g : grid) i j :
  rd2 (map_cells li hi lj hj f g) i j
  = if decide (li <= i < hi /\ lj <= j < hj)
    then match row g i !! j with
         | Some v => f i j v
         | None => S754_nan
         end
    else rd2 g i j.
Proof.
  unfold rd2, rd, row, map_cells. rewrite list_lookup_imap.
  destruct (g !! i) as [r|] eqn:E; simpl.
  - destruct (decide (li <= i < hi)) as [Hi|Hi].
    + rewrite list_lookup_imap. destruct (r !! j) as [v|] eqn:E'; simpl.
      * destruct (decide (lj <= j < hj)), (decide (_ /\ _)); try reflexivity; tauto.
      * destruct (decide (_ /\ _)); reflexivity.
    + destruct (decide (_ /\ _)); [tauto|reflexivity].
  - destruct (decide (_ /\ _)); reflexivity.
Qed.

Lemma grid_shape_rows nx ny (g : grid) :
  grid_shape nx ny g <->
  length g = nx + 2 /\ forall i r, g !! i = Some r -> length r = ny + 2.
Proof. unfold grid_shape. rewrite Forall_lookup. reflexivity. Qed.

Lemma grid_shape_lookup nx ny (g : grid) i j :
  grid_shape nx ny g -> i < nx + 2 -> j < ny + 2 ->
  row g i !! j = Some (rd2 g i j).
Proof.
  intros [L R]%grid_shape_rows Hi Hj. unfold rd2, rd, row.
  destruct (g !! i) as [r|] eqn:E.
  - simpl. destruct (r !! j) as [v|] eqn:E'; [reflexivity|].
    apply lookup_ge_None in E'. rewrite (R _ _ E) in E'. lia.
  - apply lookup_ge_None in E. lia.
Qed.

Lemma rd2_map_cells_shape nx ny li hi lj hj f (g : grid) i j :
  grid_shape nx ny g -> i < nx + 2 -> j < ny + 2 ->
  rd2 (map_cells li hi lj hj f g) i j
  = if decide (li <= i < hi /\ lj <= j < hj) then f i j (rd2 g i j) else rd2 g i j.
Proof.
  intros Sh Hi Hj. rewrite rd2_map_cells.
  rewrite (grid_shape_lookup nx ny) by assumption. reflexivity.
Qed.

Lemma grid_shape_map_cells nx ny li hi lj hj f (g : grid) :
  grid_shape nx ny g -> grid_shape nx ny (map_cells li hi lj hj f g).
Proof.
  rewrite !grid_shape_rows. intros [L R]. split.
  - unfold map_cells. rewrite length_imap. assumption.
  - intros i r. unfold map_cells. rewrite list_lookup_imap.
    destruct (g !! i) as [r0|] eqn:E; simpl; [|discriminate].
    intros [= <-]. destruct (decide _).
    + rewrite length_imap. eapply R; eassumption.
    + eapply R; eassumption.
Qed.

Lemma grid_shape_wr2 nx ny (g : grid) i j v :
  grid_shape nx ny g -> grid_shape nx ny (wr2 g i j v).
Proof.
  rewrite !grid_shape_rows. intros [L R]. split.
  - unfold wr2. rewrite length_insert. assumption.
  - intros k r. unfold wr2, wr.
    destruct (decide (i = k)) as [->|N].
    + destruct (le_lt_dec (length g) k) as [G|G].
      * rewrite list_insert_ge by assumption. apply R.
      * rewrite list_lookup_insert_eq by assumption. intros [= <-].
        rewrite length_insert. unfold row.
        destruct (g !! k) as [r0|] eqn:E.
        -- simpl. eapply R; eassumption.
        -- apply lookup_ge_None in E. lia.
    + rewrite list_lookup_insert_ne by assumption. apply R.
Qed.

(** Reading after a write inside the declared shape. *)
Lemma rd2_wr2 nx ny (g : grid) i j v i' j' :
  grid_shape nx ny g -> i < nx + 2 -> j < ny + 2 ->
  rd2 (wr2 g i j v) i' j'
  = if decide (i' = i /\ j' = j) then v else rd2 g i' j'.
Proof.
  intros [L R]%grid_shape_rows Hi Hj. unfold rd2, rd, wr2, wr.
  destruct (decide (i' = i)) as [->|N].
  - rewrite row_insert by lia.
    assert (length (row g i) = ny + 2) as Lr.
    { unfold row. destruct (g !! i) as [r|] eqn:E; [eapply R; eassumption|].
      apply lookup_ge_None in E. lia. }
    destruct (decide (j' = j)) as [->|N'].
    + rewrite list_lookup_insert_eq by lia.
      destruct (decide _); [reflexivity|tauto].
    + rewrite list_lookup_insert_ne by congruence.
      destruct (decide _); [tauto|reflexivity].
  - unfold row. rewrite list_lookup_insert_ne by congruence.
    destruct (decide _); [tauto|reflexivity].
Qed.

(** ** The boundary phase *)

Section Boundaries.
Variable c : Config.

Lemma loop6_spec (g : grid) :
  grid_shape (NX c) (NY c) g ->
  grid_shape (NX c) (NY c) (loop6 c g) /\
  forall i j, i < NX c + 2 -> j < NY c + 2 ->
    rd2 (loop6 c g) i j
    = if decide (i = NX c + 1) then bval_right c
      else if decide (i = 0) then bval_left c
      else rd2 g i j.
Proof.
  intros Sh. unfold loop6.
  pose (P := fun (k : nat) (t : grid) =>
    grid_shape (NX c) (NY c) t /\
    forall i j, i < NX c + 2 -> j < NY c + 2 ->
      rd2 t i j
      = if decide (j < k /\ i = NX c + 1) then bval_right c
        else if decide (j < k /\ i = 0) then bval_left c
        else rd2 g i j).
  assert (P (NY c + 2) (for_loop 0 (NY c + 2)
    (fun j t => wr2 (wr2 t 0 j (bval_left c)) (NX c + 1) j (bval_right c)) g))
    as [Sh' R].
  { apply for_loop_inv; [lia| |].
    - split; [exact Sh|]. intros i j _ _.
      index_cases.
    - intros k t Hk [St Rt]. split.
      + apply grid_shape_wr2, grid_shape_wr2, St.
      + intros i j Hi Hj.
        rewrite (rd2_wr2 (NX c) (NY c))
          by (try apply grid_shape_wr2; try assumption; lia).
        rewrite (rd2_wr2 (NX c) (NY c)) by (try assumption; lia).
        rewrite Rt by assumption.
        index_cases. }
  split; [exact Sh'|]. intros i j Hi Hj. rewrite R by assumption.
  index_cases.
Qed.

Lemma loop7_spec (g : grid) :
  grid_shape (NX c) (NY c) g ->
  grid_shape (NX c) (NY c) (loop7 c g) /\
  forall i j, i < NX c + 2 -> j < NY c + 2 ->
    rd2 (loop7 c g) i j
    = if decide (j = NY c + 1) then bval_upper c
      else if decide (j = 0) then bval_lower c
      else rd2 g i j.
Proof.
  intros Sh. unfold loop7.
  pose (P := fun (k : nat) (t : grid) =>
    grid_shape (NX c) (NY c) t /\
    forall i j, i < NX c + 2 -> j < NY c + 2 ->
      rd2 t i j
      = if decide (i < k /\ j = NY c + 1) then bval_upper c
        else if decide (i < k /\ j = 0) then bval_lower c
        else rd2 g i j).
  assert (P (NX c + 2) (for_loop 0 (NX c + 2)
    (fun i t => wr2 (wr2 t i 0 (bval_lower c)) i (NY c + 1) (bval_upper c)) g))
    as [Sh' R].
  { apply for_loop_inv; [lia| |].
    - split; [exact Sh|]. intros i j _ _.
      index_cases.
    - intros k t Hk [St Rt]. split.
      + apply grid_shape_wr2, grid_shape_wr2, St.
      + intros i j Hi Hj.
        rewrite (rd2_wr2 (NX c) (NY c))
          by (try apply grid_shape_wr2; try assumption; lia).
        rewrite (rd2_wr2 (NX c) (NY c)) by (try assumption; lia).
        rewrite Rt by assumption.
        index_cases. }
  split; [exact Sh'|]. intros i j Hi Hj. rewrite R by assumption.
  index_cases.
Qed.

(** The field after both passes, cell by cell: LOOP 7 runs last, so a
    cell of column [0] or [NY+1] holds the lower or upper value
    whatever its row. *)
Lemma apply_boundaries_spec (g : grid) i j :
  grid_shape (NX c) (NY c) g -> i < NX c + 2 -> j < NY c + 2 ->
  rd2 (apply_boundaries c g) i j
  = if decide (j = NY c + 1) then bval_upper c
    else if decide (j = 0) then bval_lower c
    else if decide (i = NX c + 1) then bval_right c
    else if decide (i = 0) then bval_left c
    else rd2 g i j.
Proof.
  intros Sh Hi Hj. unfold apply_boundaries.
  destruct (loop6_spec g Sh) as [Sh6 R6].
  destruct (loop7_spec _ Sh6) as [_ R7].
  rewrite R7, R6 by assumption. reflexivity.
Qed.

Lemma apply_boundaries_shape (g : grid) :
  grid_shape (NX c) (NY c) g -> grid_shape (NX c) (NY c) (apply_boundaries c g).
Proof.
  intros Sh. unfold apply_boundaries.
  destruct (loop6_spec g Sh) as [Sh6 _].
  destruct (loop7_spec _ Sh6) as [Sh7 _]. exact Sh7.
Qed.
End Boundaries.

(** ** Comparison *)

Lemma SFcompare_antisym (a b : spec_float) :
  SFcompare b a = CompOpp <$> SFcompare a b.
Proof.
  destruct a as [sa|sa| |sa ma ea], b as [sb|sb| |sb mb eb]; simpl;
    try reflexivity;
    try (destruct sa; reflexivity); try (destruct sb; reflexivity);
    try (destruct sa, sb; reflexivity).
  destruct sa, sb; simpl; try reflexivity;
    rewrite (Z.compare_antisym ea eb); destruct (ea ?= eb)%Z; simpl;
    try reflexivity;
    rewrite (Pos.compare_cont_antisym ma mb Eq); simpl;
    destruct (Pos.compare_cont Eq ma mb); reflexivity.
Qed.

(** [a <= b] excludes [a > b]. *)
Lemma le_not_gt (a b : float) : F32.le a b = true -> F32.gt a b = false.
Proof.
  unfold F32.le, F32.gt, SFleb, SFltb. rewrite (SFcompare_antisym a b).
  destruct (SFcompare a b) as [[]|]; simpl; congruence.
Qed.

(** The factor [-1] in front of the backward difference is a negation:
    the product with [(float) -1] is exact and changes the sign only. *)
Lemma minus_one_times (v : float) :
  valid_binary F32.prec F32.emax v = true ->
  F32.mul (F32.of_int (-1)) v = SFopp v.
Proof.
  destruct v as [s|s| |s m e]; try reflexivity.
  intros B. simpl in B. apply andb_true_iff in B as [C E].
  unfold canonical_mantissa in C. apply Z.eqb_eq in C.
  change (F32.of_int (-1)) with (S754_finite true 8388608 (-23)).
  unfold F32.mul, SFmul, binary_round_aux, shr_fexp.
  change (8388608 * m)%positive with (Pos.iter xO m 23).
  assert (Z.pos (digits2_pos (Pos.iter xO m 23)) = Z.pos (digits2_pos m) + 23)%Z as Dg.
  { cbn [Pos.iter digits2_pos]. rewrite !Pos2Z.inj_succ. lia. }
  unfold Zdigits2 at 1. rewrite Dg.
  replace (Z.pos (digits2_pos m) + 23 + (-23 + e))%Z
    with (Z.pos (digits2_pos m) + e)%Z by lia.
  rewrite C. replace (e - (-23 + e))%Z with 23%Z by lia.
  cbn [shr shr_record_of_loc].
  change (SpecFloat.iter_pos shr_1 23
            {| shr_m := Z.pos (Pos.iter xO m 23); shr_r := false; shr_s := false |})
    with {| shr_m := Z.pos m; shr_r := false; shr_s := false |}.
  cbn [shr_m loc_of_shr_record round_nearest_even Zdigits2].
  replace (-23 + e + 23)%Z with e by lia.
  rewrite C, Z.sub_diag. cbn [shr shr_m shr_record_of_loc].
  rewrite E. reflexivity.
Qed.

(** [a == a] holds for every value but a NaN. *)
Lemma SFeqb_refl (a : spec_float) : is_nan a = false -> SFeqb a a = true.
Proof.
  unfold SFeqb. destruct a as [s|s| |s m e]; simpl; try discriminate; intros _;
    try (destruct s; reflexivity).
  destruct s; rewrite Z.compare_refl, Pos.compare_cont_refl; reflexivity.
Qed.

(** ** One time step *)

Section Stepping.
Variable logf : float -> float.

(** Both branches of the body of LOOP 8 are the backward difference,
    with the velocity the branch selects. *)
Lemma dudt_cell_upwind c dx dy (g : grid) i j :
  dudt_cell logf c dx dy g i j
  = upwind c dx dy (streamwiseVelocity logf (F32.mul (idx j) dy)) g i j.
Proof.
  unfold dudt_cell, upwind, streamwiseVelocity.
  destruct (F32.gt _ _); reflexivity.
Qed.

Lemma loop8_derivative c dx dy (g d : grid) :
  loop8 logf c dx dy g d = derivative_phase logf c dx dy g d.
Proof.
  unfold loop8, derivative_phase.
  rewrite <- (nested_loops_map 1 (NX c + 1) 1 (NY c + 1)
    (fun i j _ => upwind c dx dy (streamwiseVelocity logf (F32.mul (idx j) dy)) g i j)).
  apply for_loop_ext; intros i t _. apply for_loop_ext; intros j t' _.
  rewrite dudt_cell_upwind. reflexivity.
Qed.

Lemma loop9_update c dt (d g : grid) :
  loop9 c dt d g = update_phase c dt d g.
Proof.
  unfold loop9, update_phase.
  apply (nested_loops_map 1 (NX c + 1) 1 (NY c + 1)
    (fun i j v => F32.add v (F32.mul (rd2 d i j) dt))).
Qed.

Lemma step_eq_two_phase c s : step logf c s = step_two_phase logf c s.
Proof.
  unfold step, step_two_phase. cbv zeta.
  rewrite loop8_derivative, loop9_update. reflexivity.
Qed.

Lemma time_loop_0 c s : time_loop logf c 0 s = s.
Proof. reflexivity. Qed.

Lemma time_loop_S c n s :
  time_loop logf c (S n) s = step logf c (time_loop logf c n s).
Proof. unfold time_loop. rewrite for_loop_snoc by lia. reflexivity. Qed.

Lemma declared_step c s : declared c s -> declared c (step logf c s).
Proof.
  intros [Hx Hy Hu Hd]. rewrite step_eq_two_phase.
  split; simpl; try assumption.
  - apply grid_shape_map_cells, apply_boundaries_shape, Hu.
  - apply grid_shape_map_cells, Hd.
Qed.

Lemma declared_time_loop c n s :
  declared c s -> declared c (time_loop logf c n s).
Proof.
  intros H. induction n as [|n IH].
  - exact H.
  - rewrite time_loop_S. apply declared_step, IH.
Qed.

(** The scalars [dx], [dy], [dt] and the axes are not assigned in the
    time loop. *)
Lemma time_loop_scalars c n s :
  let s' := time_loop logf c n s in
  dx s' = dx s /\ dy s' = dy s /\ dt s' = dt s /\ x s' = x s /\ y s' = y s.
Proof.
  induction n as [|n IH]; cbv zeta.
  - repeat split.
  - rewrite time_loop_S. simpl. exact IH.
Qed.

(** The cells of one step, from the field [ub] the boundary phase
    leaves. *)
Lemma step_cells c s i j :
  declared c s -> i < NX c + 2 -> j < NY c + 2 ->
  let ub := apply_boundaries c (u s) in
  let v := streamwiseVelocity logf (F32.mul (idx j) (dy s)) in
  let s' := step logf c s in
  rd2 (dudt s') i j
  = (if decide (1 <= i < NX c + 1 /\ 1 <= j < NY c + 1)
     then upwind c (dx s) (dy s) v ub i j else rd2 (dudt s) i j) /\
  rd2 (u s') i j
  = (if decide (1 <= i < NX c + 1 /\ 1 <= j < NY c + 1)
     then F32.add (rd2 ub i j) (F32.mul (rd2 (dudt s') i j) (dt s))
     else rd2 ub i j).
Proof.
  intros [Hx Hy Hu Hd] Hi Hj. cbv zeta. rewrite step_eq_two_phase.
  unfold step_two_phase. cbv zeta. simpl. split.
  - unfold derivative_phase.
    rewrite (rd2_map_cells_shape (NX c) (NY c)) by assumption. reflexivity.
  - unfold update_phase.
    rewrite (rd2_map_cells_shape (NX c) (NY c))
      by (try apply apply_boundaries_shape; assumption).
    reflexivity.
Qed.

(** LOOP 9 writes interior cells only: a ghost cell ends the step with
    the value the boundary phase gave it. *)
Lemma step_ghost_cells c s i j :
  declared c s -> i < NX c + 2 -> j < NY c + 2 ->
  ~ (1 <= i < NX c + 1 /\ 1 <= j < NY c + 1) ->
  rd2 (u (step logf c s)) i j = rd2 (apply_boundaries c (u s)) i j.
Proof.
  intros D Hi Hj N.
  destruct (step_cells c s i j D Hi Hj) as [_ Hu].
  rewrite Hu. destruct (decide _); [tauto|reflexivity].
Qed.
End Stepping.

(** ** Shapes of concrete memories *)

Lemma declared_demo : declared demo_config demo_vars.
Proof.
  split; try reflexivity; (split; [reflexivity|]); repeat constructor.
Qed.

(** ** Claims *)

(** C1.  Every time step is the two-phase scheme: the state after step
    [m] is [step_two_phase] of the state before it, that is, with [ub] the
    field the boundary phase leaves, every interior [dudt[i][j]] is the
    backward difference
    [-(v * (ub[i][j] - ub[i-1][j]) / dx + vely * (ub[i][j] - ub[i][j-1]) / dy)]
    with [v = streamwiseVelocity (j * dy)], all of them computed from the
    same [ub], and only then is every interior [u[i][j]] set to
    [ub[i][j] + dudt[i][j] * dt]. *)
Theorem step_is_two_phase (logf : float -> float) (c : Config) (s : Vars) (m : nat) :
  declared c s ->
  let sm := time_loop logf c m s in
  let s' := time_loop logf c (S m) s in
  let ub := apply_boundaries c (u sm) in
  s' = step_two_phase logf c sm /\
  forall i j, 1 <= i <= NX c -> 1 <= j <= NY c ->
    rd2 (dudt s') i j
    = upwind c (dx s) (dy s) (streamwiseVelocity logf (F32.mul (idx j) (dy s))) ub i j /\
    rd2 (u s') i j = F32.add (rd2 ub i j) (F32.mul (rd2 (dudt s') i j) (dt s)).
Proof.
  intros D. cbv zeta. rewrite time_loop_S. split.
  - apply step_eq_two_phase.
  - intros i j Hi Hj.
    pose proof (declared_time_loop logf c m s D) as Dm.
    destruct (time_loop_scalars logf c m s) as (Ex & Ey & Et & _).
    destruct (step_cells logf c (time_loop logf c m s) i j Dm) as [Hd Hu];
      [lia|lia|].
    rewrite Ex, Ey, Et in *.
    destruct (decide _) as [_|N]; [|lia].
    split; assumption.
Qed.

Lemma step_is_two_phase_witness :
  declared demo_config demo_vars /\
  time_loop logf_tangent demo_config 2 demo_vars
  = step_two_phase logf_tangent demo_config
      (time_loop logf_tangent demo_config 1 demo_vars).
Proof.
  split; [exact declared_demo|].
  exact (proj1 (step_is_two_phase logf_tangent demo_config demo_vars 1 declared_demo)).
Defined.

(** C3.  The velocity the body of LOOP 8 multiplies the x-difference
    with is [streamwiseVelocity] of its coordinate, and for every [y]
    that function is exactly [0] when [y <= 1], exactly
    [(0.2/0.41) * logf(y / 1.0)] when [y > 1], and [0] at [y == 1]. *)
Theorem streamwiseVelocity_branches (logf : float -> float) :
  (forall c dx dy (g : grid) i j,
     dudt_cell logf c dx dy g i j
     = upwind c dx dy (streamwiseVelocity logf (F32.mul (idx j) dy)) g i j) /\
  (forall y : float,
     (F32.le y (F32.of_int 1) = true -> streamwiseVelocity logf y = F32.of_int 0) /\
     (F32.gt y (F32.of_int 1) = true ->
      streamwiseVelocity logf y
      = F32.of_double
          (F64.mul kappa_ratio
             (F64.of_float
                (logf (F32.of_double (F64.div (F64.of_float y) (F64.dec 10 1)))))))) /\
  streamwiseVelocity logf (F32.of_int 1) = F32.of_int 0.
Proof.
  split; [|split].
  - intros. apply dudt_cell_upwind.
  - intros y. split; intros H; unfold streamwiseVelocity.
    + rewrite (le_not_gt _ _ H). reflexivity.
    + rewrite H. reflexivity.
  - reflexivity.
Qed.

Lemma streamwiseVelocity_branches_witness :
  (F32.le (flit 5 1) (F32.of_int 1) = true /\
   streamwiseVelocity logf_tangent (flit 5 1) = S754_zero false) /\
  (F32.gt (flit 20 1) (F32.of_int 1) = true /\
   streamwiseVelocity logf_tangent (flit 20 1)
   = S754_finite false 16368016 (-25)).
Proof.
  pose proof (proj1 (proj2 (streamwiseVelocity_branches logf_tangent))) as H.
  split; (split; [reflexivity|]).
  - exact (proj1 (H (flit 5 1)) eq_refl).
  - rewrite (proj2 (H (flit 20 1)) eq_refl). reflexivity.
Defined.

(** C10.  In the boundary phase LOOP 6 (the x-direction) runs before
    LOOP 7 (the y-direction): after LOOP 6 the four corners hold the left
    or right value, and LOOP 7 overwrites them, so that after the phase,
    and at the end of the step, they hold [bval_lower] or [bval_upper]. *)
Theorem corners_hold_y_values (logf : float -> float) (c : Config) (s : Vars) :
  declared c s ->
  let g6 := loop6 c (u s) in
  let g7 := loop7 c g6 in
  let g' := u (step logf c s) in
  apply_boundaries c (u s) = g7 /\
  (rd2 g6 0 0 = bval_left c /\ rd2 g6 0 (NY c + 1) = bval_left c /\
   rd2 g6 (NX c + 1) 0 = bval_right c /\
   rd2 g6 (NX c + 1) (NY c + 1) = bval_right c) /\
  (rd2 g7 0 0 = bval_lower c /\ rd2 g7 (NX c + 1) 0 = bval_lower c /\
   rd2 g7 0 (NY c + 1) = bval_upper c /\
   rd2 g7 (NX c + 1) (NY c + 1) = bval_upper c) /\
  (rd2 g' 0 0 = bval_lower c /\ rd2 g' (NX c + 1) 0 = bval_lower c /\
   rd2 g' 0 (NY c + 1) = bval_upper c /\
   rd2 g' (NX c + 1) (NY c + 1) = bval_upper c).
Proof.
  intros D. cbv zeta. pose proof (decl_u _ _ D) as Sh.
  destruct (loop6_spec c _ Sh) as [Sh6 R6].
  destruct (loop7_spec c _ Sh6) as [Sh7 R7].
  split; [reflexivity|]. split; [|split].
  - rewrite !R6 by lia. repeat case_decide; try lia. repeat split.
  - rewrite !R7 by lia. repeat case_decide; try lia. repeat split.
  - rewrite !(step_ghost_cells logf c s) by (try assumption; lia).
    unfold apply_boundaries. rewrite !R7 by lia.
    repeat case_decide; try lia. repeat split.
Qed.

Lemma corners_hold_y_values_witness :
  declared demo_config demo_vars /\
  rd2 (loop6 demo_config (u demo_vars)) 0 0 = bval_left demo_config /\
  rd2 (u (step logf_tangent demo_config demo_vars)) 0 0 = bval_lower demo_config /\
  bval_left demo_config <> bval_lower demo_config.
Proof.
  pose proof (corners_hold_y_values logf_tangent demo_config demo_vars declared_demo)
    as (_ & (H6 & _) & _ & (H' & _)).
  split; [exact declared_demo|]. split; [exact H6|]. split; [exact H'|].
  discriminate.
Defined.

(** C4, as stated, fails at the corners: with [bval_left] different from
    [bval_lower], [u[0][0]] does not compare equal to [bval_left] after a
    step, whatever [logf] is. *)
Lemma ghost_corner_counterexample :
  ~ (exists logf : float -> float,
       F32.eq (rd2 (u (time_loop logf demo_config 1 demo_vars)) 0 0)
         (bval_left demo_config) = true).
Proof.
  intros [logf H]. vm_compute in H. discriminate.
Qed.

(** C4, amended.  After every completed step the ghost cells hold the
    boundary values: [u[0][j]] and [u[NX+1][j]] the left and right value
    for [j] in [1..NY], and [u[i][0]] and [u[i][NY+1]] the lower and upper
    value for every [i] in [0..NX+1], corners included.  The left (right)
    value also stands at the two corners of its row when the lower and
    upper values equal it, as in the source, where all four are [0.0]. *)
Theorem ghost_cells_after_step (logf : float -> float) (c : Config) (s : Vars) (m : nat) :
  declared c s ->
  let g := u (time_loop logf c (S m) s) in
  (forall j, 1 <= j <= NY c ->
     rd2 g 0 j = bval_left c /\ rd2 g (NX c + 1) j = bval_right c) /\
  (forall i, i <= NX c + 1 ->
     rd2 g i 0 = bval_lower c /\ rd2 g i (NY c + 1) = bval_upper c) /\
  (bval_lower c = bval_left c -> bval_upper c = bval_left c ->
   forall j, j <= NY c + 1 -> rd2 g 0 j = bval_left c) /\
  (bval_lower c = bval_right c -> bval_upper c = bval_right c ->
   forall j, j <= NY c + 1 -> rd2 g (NX c + 1) j = bval_right c).
Proof.
  intros D. cbv zeta. rewrite time_loop_S.
  pose proof (declared_time_loop logf c m s D) as Dm.
  set (sm := time_loop logf c m s) in *.
  assert (forall i j, i < NX c + 2 -> j < NY c + 2 ->
            ~ (1 <= i < NX c + 1 /\ 1 <= j < NY c + 1) ->
            rd2 (u (step logf c sm)) i j
            = if decide (j = NY c + 1) then bval_upper c
              else if decide (j = 0) then bval_lower c
              else if decide (i = NX c + 1) then bval_right c
              else if decide (i = 0) then bval_left c
              else rd2 (u sm) i j) as G.
  { intros i j Hi Hj N. rewrite step_ghost_cells by assumption.
    apply apply_boundaries_spec; [apply Dm|assumption..]. }
  repeat split.
  - rewrite G by lia. index_cases.
  - rewrite G by lia. index_cases.
  - rewrite G by lia. index_cases.
  - rewrite G by lia. index_cases.
  - intros El Eu j Hj. rewrite G by lia.
    index_cases.
  - intros El Eu j Hj. rewrite G by lia.
    index_cases.
Qed.

Lemma ghost_cells_after_step_witness :
  declared demo_config demo_vars /\
  rd2 (u (time_loop logf_tangent demo_config 2 demo_vars)) 0 1
  = bval_left demo_config /\
  rd2 (u (time_loop logf_tangent demo_config 2 demo_vars)) 0 0
  = bval_lower demo_config.
Proof.
  pose proof (ghost_cells_after_step logf_tangent demo_config demo_vars 1 declared_demo)
    as (Hx & Hy & _).
  split; [exact declared_demo|]. split.
  - apply (Hx 1). simpl. lia.
  - apply (Hy 0). simpl. lia.
Defined.

(** ** Set-up and output loops *)

(** Reading the elements of an array in index order. *)
Lemma map_rd_seq (l : array) : map (rd l) (seq 0 (length l)) = l.
Proof.
  apply list_eq; intros k. rewrite list_lookup_fmap.
  destruct (le_lt_dec (length l) k) as [O|I].
  - rewrite lookup_ge_None_2 by (rewrite length_seq; lia).
    rewrite lookup_ge_None_2 by lia. reflexivity.
  - rewrite lookup_seq_lt by lia. simpl. unfold rd.
    destruct (lookup_lt_is_Some_2 l k I) as [v ->]. reflexivity.
Qed.

(** An accumulation over the indices of an array is a fold over it. *)
Lemma for_loop_fold {B : Type} (f : B -> float -> B) (l : array) (a : B) :
  for_loop 0 (length l) (fun j acc => f acc (rd l j)) a = fold_left f l a.
Proof.
  unfold for_loop. rewrite Nat.sub_0_r.
  transitivity (fold_left f (map (rd l) (seq 0 (length l))) a).
  - generalize (seq 0 (length l)) a. intros js.
    induction js as [|j js IH]; intros b; simpl; [reflexivity|apply IH].
  - rewrite map_rd_seq. reflexivity.
Qed.

(** A loop that prints one row per index. *)
Lemma for_loop_rows {B : Type} (h : nat -> B) lo hi (file : list B) :
  for_loop lo hi (fun i file => file ++ [h i]) file
  = file ++ map h (seq lo (hi - lo)).
Proof.
  unfold for_loop. generalize (seq lo (hi - lo)) file. intros js.
  induction js as [|j js IH]; intros f; simpl.
  - rewrite app_nil_r. reflexivity.
  - rewrite IH, <- app_assoc. reflexivity.
Qed.

Lemma fill_axis_eq n d (a : array) :
  fill_axis n d a = imap (fun k v => if decide (0 <= k < n + 2) then centre k d else v) a.
Proof.
  unfold fill_axis, wr.
  apply (for_loop_insert S754_nan 0 (n + 2) (fun k _ => centre k d)).
Qed.

Lemma fill_axis_length n d (a : array) : length (fill_axis n d a) = length a.
Proof. rewrite fill_axis_eq. apply length_imap. Qed.

Lemma fill_axis_rd n d (a : array) i :
  i < n + 2 -> i < length a -> rd (fill_axis n d a) i = centre i d.
Proof.
  intros Hi Ha. rewrite fill_axis_eq. unfold rd. rewrite list_lookup_imap.
  destruct (lookup_lt_is_Some_2 a i Ha) as [v ->]. simpl.
  destruct (decide _); [reflexivity|lia].
Qed.

Section Initialise.
Variable log : double -> double.
Variable exp : double -> double.

Lemma init_u_eq c (xs ys : array) (g : grid) :
  init_u exp c xs ys g
  = map_cells 0 (NX c + 2) 0 (NY c + 2)
      (fun i j _ => gaussian exp c (rd xs i) (rd ys j)) g.
Proof.
  unfold init_u.
  apply (nested_loops_map 0 (NX c + 2) 0 (NY c + 2)
    (fun i j _ => gaussian exp c (rd xs i) (rd ys j))).
Qed.

Lemma declared_initialise c s : declared c s -> declared c (initialise log exp c s).
Proof.
  intros [Hx Hy Hu Hd]. split; simpl.
  - rewrite fill_axis_length. assumption.
  - rewrite fill_axis_length. assumption.
  - rewrite init_u_eq. apply grid_shape_map_cells, Hu.
  - assumption.
Qed.

(** What the set-up leaves in the variables. *)
Lemma initialise_spec c s :
  declared c s ->
  let s0 := initialise log exp c s in
  dx s0 = spacing (xmin c) (xmax c) (NX c) /\
  dy s0 = spacing (ymin c) (ymax c) (NY c) /\
  dt s0 = cfl_dt log c (dx s0) (dy s0) /\
  (forall i, i < NX c + 2 -> rd (x s0) i = centre i (dx s0)) /\
  (forall j, j < NY c + 2 -> j < NX c + 2 -> rd (y s0) j = centre j (dy s0)) /\
  (forall i j, i < NX c + 2 -> j < NY c + 2 ->
     rd2 (u s0) i j = gaussian exp c (rd (x s0) i) (rd (y s0) j)).
Proof.
  intros [Hx Hy Hu Hd]. cbv zeta. simpl. repeat split.
  - intros i Hi. apply fill_axis_rd; lia.
  - intros j Hj Hj'. apply fill_axis_rd; lia.
  - intros i j Hi Hj. rewrite init_u_eq.
    rewrite (rd2_map_cells_shape (NX c) (NY c)) by assumption.
    destruct (decide _); [reflexivity|lia].
Qed.
End Initialise.

Section Main.
Variable log : double -> double.
Variable logf : float -> float.
Variable exp : double -> double.

Lemma declared_main c s : declared c s -> declared c (fst (main log logf exp c s)).
Proof.
  intros D. simpl. apply declared_time_loop, declared_initialise, D.
Qed.

Lemma averages_eq c s :
  averages c s = map (fun i => (rd (x s) i, yAvg c (u s) i)) (seq 0 (NX c + 2)).
Proof.
  unfold averages. rewrite for_loop_rows. rewrite Nat.sub_0_r. reflexivity.
Qed.

Lemma yAvg_eq c (g : grid) i :
  grid_shape (NX c) (NY c) g -> i < NX c + 2 ->
  yAvg c g i = F32.div (fold_left F32.add (row g i) (F32.of_int 0)) (idx (NY c)) /\
  length (row g i) = NY c + 2.
Proof.
  intros [L R]%grid_shape_rows Hi.
  assert (length (row g i) = NY c + 2) as Lr.
  { unfold row. destruct (lookup_lt_is_Some_2 g i) as [r E]; [lia|].
    rewrite E. simpl. eapply R; eassumption. }
  split; [|exact Lr]. unfold yAvg, rd2. cbv zeta. rewrite <- Lr.
  rewrite (for_loop_fold F32.add). reflexivity.
Qed.
End Main.

(** C8.  Row [i] of the file of averages is [x[i]] and the sum of the
    final [u[i][j]] over the whole range [j = 0 .. NY+1], the two ghost
    cells included, accumulated from [0] in index order and divided by
    [NY] (not by [NY+2]). *)
Theorem vertical_average (log : double -> double) (logf : float -> float)
    (exp : double -> double) (c : Config) (s : Vars) (i : nat) :
  declared c s -> i < NX c + 2 ->
  let out := main log logf exp c s in
  let u_final := u (fst out) in
  average_dat (snd out) !! i
  = Some (rd (x (fst out)) i,
          F32.div (fold_left F32.add (row u_final i) (F32.of_int 0)) (idx (NY c))) /\
  row u_final i = map (rd2 u_final i) (seq 0 (NY c + 2)).
Proof.
  intros D Hi. cbv zeta.
  pose proof (declared_main log logf exp c s D) as Df.
  destruct (yAvg_eq c (u (fst (main log logf exp c s))) i (decl_u _ _ Df) Hi)
    as [Ha Lr].
  split.
  - unfold main. cbv zeta. simpl average_dat. simpl fst in *.
    rewrite averages_eq, list_lookup_fmap, lookup_seq_lt by lia.
    simpl. rewrite Ha. reflexivity.
  - unfold rd2. rewrite <- Lr. symmetry. apply map_rd_seq.
Qed.

Lemma vertical_average_witness :
  declared demo_config demo_vars /\
  average_dat (snd (main log_tangent logf_tangent exp_tangent demo_config demo_vars)) !! 1
  = Some (S754_finite false 8388608 (-23), S754_finite false 10051010 (-21)).
Proof.
  split; [exact declared_demo|].
  rewrite (proj1 (vertical_average log_tangent logf_tangent exp_tangent
                    demo_config demo_vars 1 declared_demo ltac:(simpl; lia))).
  vm_compute. reflexivity.
Defined.

Lemma declared_blank c : declared c (blank_vars c).
Proof.
  split; simpl; try apply length_replicate;
    (split; [apply length_replicate|]);
    apply Forall_replicate, length_replicate.
Qed.

(** A property checked on every index of a range. *)
Lemma forallb_range (P : nat -> bool) lo n :
  forallb P (seq lo n) = true -> forall i, lo <= i < lo + n -> P i = true.
Proof.
  intros H i Hi. rewrite forallb_forall in H. apply H. apply in_seq. lia.
Qed.

(** C5.  After the set-up every cell of the [(NX+2) x (NY+2)] array, the
    ghost cells included, holds
    [exp(-((x[i]-x0)^2/(2*sigmax^2) + (y[j]-y0)^2/(2*sigmay^2)))], where
    [sigmax^2] and [sigmay^2] are the products [sigmax * sigmax] and
    [sigmay * sigmay], the squares are taken in [float] and the rest in
    [double], and [x[i]] and [y[j]] are the cell-centred axis values.
    ([y] is declared with [NX+2] elements, so it holds its [NY+2] values
    when [NY <= NX].) *)
Theorem gaussian_initial_field (log exp : double -> double) (c : Config) (s : Vars) :
  declared c s -> NY c <= NX c ->
  let s0 := initialise log exp c s in
  forall i j, i <= NX c + 1 -> j <= NY c + 1 ->
    let xi := rd (x s0) i in
    let yj := rd (y s0) j in
    let x2 := F32.mul (F32.sub xi (x0 c)) (F32.sub xi (x0 c)) in
    let y2 := F32.mul (F32.sub yj (y0 c)) (F32.sub yj (y0 c)) in
    rd2 (u s0) i j
    = F32.of_double
        (exp
           (F64.mul (SFopp (F64.dec 10 1))
              (F64.add
                 (F64.div (F64.of_float x2)
                    (F64.mul (F64.dec 20 1)
                       (F64.of_float (F32.mul (sigmax c) (sigmax c)))))
                 (F64.div (F64.of_float y2)
                    (F64.mul (F64.dec 20 1)
                       (F64.of_float (F32.mul (sigmay c) (sigmay c)))))))) /\
    xi = centre i (dx s0) /\ yj = centre j (dy s0).
Proof.
  intros D L s0 i j Hi Hj.
  destruct (initialise_spec log exp c s D) as (_ & _ & _ & Hx & Hy & Hu).
  cbv zeta. fold s0 in Hx, Hy, Hu. split; [|split].
  - rewrite Hu by lia. reflexivity.
  - apply Hx. lia.
  - apply Hy; lia.
Qed.

Lemma declared_gauss : declared gauss_config (blank_vars gauss_config).
Proof. apply declared_blank. Qed.

Lemma gaussian_initial_field_witness :
  (declared gauss_config (blank_vars gauss_config) /\
   NY gauss_config <= NX gauss_config) /\
  rd (x (initialise log_tangent exp_tangent gauss_config (blank_vars gauss_config))) 1
    = F32.of_int 1 /\
  rd (y (initialise log_tangent exp_tangent gauss_config (blank_vars gauss_config))) 2
    = F32.of_int 3 /\
  rd2 (u (initialise log_tangent exp_tangent gauss_config (blank_vars gauss_config))) 1 2
    = S754_finite false 15728640 (-25).
Proof.
  split; [split; [exact declared_gauss|simpl; lia]|].
  split; [vm_compute; reflexivity|]. split; [vm_compute; reflexivity|].
  rewrite (proj1 (gaussian_initial_field log_tangent exp_tangent gauss_config
                    (blank_vars gauss_config) declared_gauss ltac:(simpl; lia) 1 2
                    ltac:(simpl; lia) ltac:(simpl; lia))).
  vm_compute. reflexivity.
Defined.

(** ** The source configuration *)

Lemma source_spacing :
  spacing (xmin source_config) (xmax source_config) (NX source_config)
  = S754_finite false 16106127 (-29) /\
  spacing (ymin source_config) (ymax source_config) (NY source_config)
  = S754_finite false 16106127 (-29).
Proof. split; vm_compute; reflexivity. Qed.

Lemma source_axis_increasing i :
  i <= 1000 ->
  F32.gt (centre (i + 1) (S754_finite false 16106127 (-29)))
         (centre i (S754_finite false 16106127 (-29))) = true.
Proof.
  intros Hi.
  apply (forallb_range
    (fun i => F32.gt (centre (i + 1) (S754_finite false 16106127 (-29)))
                     (centre i (S754_finite false 16106127 (-29)))) 0 1001);
    [vm_compute; reflexivity|lia].
Qed.

Lemma source_axis_values i :
  i <= 1001 ->
  (Qabs (SF2Q (centre i (S754_finite false 16106127 (-29)))
         - ((2 * Z.of_nat i - 1) # 2) * (3 # 100)) <= 1 # 2 ^ 19)%Q.
Proof.
  intros Hi. apply Qle_bool_iff.
  apply (forallb_range
    (fun i => Qle_bool
       (Qabs (SF2Q (centre i (S754_finite false 16106127 (-29)))
              - ((2 * Z.of_nat i - 1) # 2) * (3 # 100))) (1 # 2 ^ 19)) 0 1002);
    [vm_compute; reflexivity|lia].
Qed.

(** C7, as stated, fails for spacings that underflow: with [max = 2^-149],
    [min = 0] and [N = 2], [max > min] holds and [(max - min) / N] rounds
    to zero, so [d > 0] fails and the entries [0] and [1] of the axis, both
    zero, are not increasing. *)
Lemma axis_underflow_counterexample :
  let c := tiny_config in
  let d := spacing (xmin c) (xmax c) (NX c) in
  let ax := fill_axis (NX c) d (replicate (NX c + 2) S754_nan) in
  F32.gt (xmax c) (xmin c) = true /\
  F32.gt d (F32.of_int 0) = false /\
  F32.gt (rd ax 1) (rd ax 0) = false.
Proof. repeat split. Qed.

(** C7, amended.  After the set-up each axis holds one cell centre per
    index: [x[i] = ((float) i - 0.5) * dx] for [i] in [0..NX+1], in an
    array of [NX+2] elements, and [y[j] = ((float) j - 0.5) * dy] for [j]
    in [0..NY+1], the products taken in [double] and rounded to [float],
    with [dx = (xmax - xmin) / (float) NX] and
    [dy = (ymax - ymin) / (float) NY] in [float].  In the source
    configuration (1000 cells on [0, 30] each way) [dx] and [dy] are
    positive, both axes are strictly increasing, and every entry is within
    [2^-19] of [(i - 1/2) * 3/100]. *)
Theorem axes_hold_cell_centres (log exp : double -> double) (c : Config) (s : Vars) :
  declared c s -> NY c <= NX c ->
  let s0 := initialise log exp c s in
  let mid (k : nat) (d : float) :=
    F32.of_double
      (F64.mul (F64.sub (F64.of_float (idx k)) (F64.dec 5 1)) (F64.of_float d)) in
  (dx s0 = F32.div (F32.sub (xmax c) (xmin c)) (idx (NX c)) /\
   dy s0 = F32.div (F32.sub (ymax c) (ymin c)) (idx (NY c))) /\
  (length (x s0) = NX c + 2 /\
   forall i, i <= NX c + 1 -> rd (x s0) i = mid i (dx s0)) /\
  (forall j, j <= NY c + 1 -> rd (y s0) j = mid j (dy s0)) /\
  (c = source_config ->
   F32.gt (dx s0) (F32.of_int 0) = true /\
   F32.gt (dy s0) (F32.of_int 0) = true /\
   (forall i, i <= 1000 ->
      F32.gt (rd (x s0) (i + 1)) (rd (x s0) i) = true /\
      F32.gt (rd (y s0) (i + 1)) (rd (y s0) i) = true) /\
   (forall i, i <= 1001 ->
      let ideal := (((2 * Z.of_nat i - 1) # 2) * (3 # 100))%Q in
      (Qabs (SF2Q (rd (x s0) i) - ideal) <= 1 # 2 ^ 19)%Q /\
      (Qabs (SF2Q (rd (y s0) i) - ideal) <= 1 # 2 ^ 19)%Q)).
Proof.
  intros D L s0 mid.
  destruct (initialise_spec log exp c s D) as (Edx & Edy & _ & Hx & Hy & _).
  fold s0 in Edx, Edy, Hx, Hy. split; [|split; [|split]].
  - split; assumption.
  - split.
    + pose proof (decl_x _ _ (declared_initialise log exp c s D)) as Lx. exact Lx.
    + intros i Hi. apply Hx. lia.
  - intros j Hj. apply Hy; lia.
  - intros ->. destruct source_spacing as [Sx Sy].
    rewrite Sx in Edx. rewrite Sy in Edy.
    split; [rewrite Edx; reflexivity|]. split; [rewrite Edy; reflexivity|].
    assert (NX source_config = 1000 /\ NY source_config = 1000) as [Nx Ny]
      by (split; reflexivity).
    split; intros i Hi; cbv zeta.
    + rewrite !Hx by lia. rewrite !Hy by lia. rewrite Edx, Edy.
      split; apply source_axis_increasing; assumption.
    + rewrite !Hx by lia. rewrite !Hy by lia. rewrite Edx, Edy.
      split; apply source_axis_values; assumption.
Qed.

Lemma axes_hold_cell_centres_witness :
  (declared source_config (blank_vars source_config) /\
   NY source_config <= NX source_config) /\
  F32.gt (dx (initialise log_tangent exp_tangent source_config
                (blank_vars source_config))) (F32.of_int 0) = true.
Proof.
  split; [split; [apply declared_blank|apply Nat.le_refl]|].
  exact (proj1 (proj2 (proj2 (proj2
    (axes_hold_cell_centres log_tangent exp_tangent source_config
       (blank_vars source_config) (declared_blank source_config)
       (Nat.le_refl _)))) eq_refl)).
Defined.

(** Rounding a magnitude gives no negative zero. *)
Lemma binary_round_aux_pos_add_zero prec emax mz ez lz :
  SFadd prec emax (binary_round_aux prec emax false mz ez lz) (S754_zero false)
  = binary_round_aux prec emax false mz ez lz.
Proof.
  unfold binary_round_aux.
  destruct (shr_fexp prec emax mz ez lz) as [mrs' e'].
  destruct (shr_fexp prec emax _ e' loc_Exact) as [mrs'' e''].
  destruct (shr_m mrs'') as [|m|m]; try reflexivity.
  destruct (e'' <=? emax - prec)%Z; reflexivity.
Qed.

(** Adding the zero cross-stream term leaves [|v| / d] as it is. *)
Lemma div_abs_add_zero prec emax (t : spec_float) m e :
  SFadd prec emax (SFdiv prec emax (SFabs t) (S754_finite false m e)) (S754_zero false)
  = SFdiv prec emax (SFabs t) (S754_finite false m e).
Proof.
  destruct t as [st|st| |st mt et]; try reflexivity.
  unfold SFabs, SFdiv.
  destruct (SFdiv_core_binary prec emax (Z.pos mt) et (Z.pos m) e) as [[mz ez] lz].
  apply binary_round_aux_pos_add_zero.
Qed.

(** C2.  The time step is set once, by the set-up, to
    [CFL / (|(0.2/0.41) * log(ymax / 1.0)| / dx + |vely| / dy)], evaluated
    in [double] and stored in a [float]; the time loop does not assign it,
    so it is the same after any number of steps and at the end of [main].
    In the source configuration [dx] and [dy] are both the [float] [0.03f]
    (within [2^-30] of 3/100), the cross-stream term is zero, and [dt] is
    [0.9f / (|(0.2/0.41) * log(30.0)| / 0.03f)]: [0.0162737] when [log]
    returns the [double] nearest to [ln 30]. *)
Theorem time_step_from_cfl (log : double -> double) (logf : float -> float)
    (exp : double -> double) (c : Config) (s : Vars) :
  let s0 := initialise log exp c s in
  dt s0
  = F32.of_double
      (F64.div (F64.of_float (CFL c))
         (F64.add
            (F64.div
               (F64.fabs
                  (F64.mul (F64.div (F64.dec 2 1) (F64.dec 41 2))
                     (log (F64.div (F64.of_float (ymax c)) (F64.dec 10 1)))))
               (F64.of_float (dx s0)))
            (F64.div (F64.fabs (F64.of_float (vely c))) (F64.of_float (dy s0))))) /\
  (forall n, dt (time_loop logf c n s0) = dt s0) /\
  dt (fst (main log logf exp c s)) = dt s0 /\
  (c = source_config ->
   dx s0 = flit 3 2 /\ dy s0 = flit 3 2 /\
   (Qabs (SF2Q (flit 3 2) - (3 # 100)) <= 1 # 2 ^ 30)%Q /\
   dt s0
   = F32.of_double
       (F64.div (F64.of_float (flit 9 1))
          (F64.div
             (F64.fabs
                (F64.mul (F64.div (F64.dec 2 1) (F64.dec 41 2))
                   (log (F64.of_int 30))))
             (F64.of_float (flit 3 2)))) /\
   (log (F64.of_int 30) = ln30 -> dt s0 = S754_finite false 8736865 (-29))).
Proof.
  intros s0. split; [reflexivity|]. split; [|split].
  - intros n. apply (time_loop_scalars logf c n s0).
  - apply (time_loop_scalars logf c (nsteps c) s0).
  - intros ->.
    assert (dx s0 = flit 3 2) as Edx.
    { change (dx s0) with
        (spacing (xmin source_config) (xmax source_config) (NX source_config)).
      rewrite (proj1 source_spacing). vm_compute. reflexivity. }
    assert (dy s0 = flit 3 2) as Edy.
    { change (dy s0) with
        (spacing (ymin source_config) (ymax source_config) (NY source_config)).
      rewrite (proj2 source_spacing). vm_compute. reflexivity. }
    assert (dt s0
            = F32.of_double
                (F64.div (F64.of_float (flit 9 1))
                   (F64.div
                      (F64.fabs
                         (F64.mul (F64.div (F64.dec 2 1) (F64.dec 41 2))
                            (log (F64.of_int 30))))
                      (F64.of_float (flit 3 2))))) as Edt.
    { change (dt s0) with
        (cfl_dt log source_config
           (spacing (xmin source_config) (xmax source_config) (NX source_config))
           (spacing (ymin source_config) (ymax source_config) (NY source_config))).
      destruct source_spacing as [-> ->]. unfold cfl_dt, kappa_ratio.
      replace (F64.div (F64.of_float (ymax source_config)) (F64.dec 10 1))
        with (F64.of_int 30) by (vm_compute; reflexivity).
      replace (F64.div (F64.fabs (F64.of_float (vely source_config)))
                 (F64.of_float (S754_finite false 16106127 (-29))))
        with (S754_zero false) by (vm_compute; reflexivity).
      replace (F64.of_float (S754_finite false 16106127 (-29)))
        with (S754_finite false 8646911091277824 (-58)) by (vm_compute; reflexivity).
      replace (F64.of_float (flit 3 2))
        with (S754_finite false 8646911091277824 (-58)) by (vm_compute; reflexivity).
      replace (CFL source_config) with (flit 9 1) by reflexivity.
      unfold F64.add, F64.fabs.
      unfold F64.div at 2 4.
      rewrite div_abs_add_zero. reflexivity. }
    repeat split; try assumption.
    + vm_compute. discriminate.
    + intros E. rewrite Edt, E. vm_compute. reflexivity.
Qed.

Lemma time_step_from_cfl_witness :
  dt (initialise log_of_30 exp_tangent source_config (blank_vars source_config))
  = S754_finite false 8736865 (-29).
Proof.
  destruct (time_step_from_cfl log_of_30 logf_tangent exp_tangent source_config
              (blank_vars source_config)) as (_ & _ & _ & H).
  destruct (H eq_refl) as (_ & _ & _ & _ & H').
  exact (H' eq_refl).
Defined.

(** C9, as stated, fails in the source configuration at [j = 2]: the
    coordinate [2 * dy] is exact, the axis value [1.5 * dy] is rounded,
    and their difference is [dy/2 + 2^-30], not [dy/2], whether it is
    taken exactly or in [float]. *)
Lemma half_cell_offset_counterexample :
  let c := source_config in
  let d := spacing (ymin c) (ymax c) (NY c) in
  let used := F32.mul (idx 2) d in
  let axis := centre 2 d in
  (SF2Q used - SF2Q axis == SF2Q d / 2 + (1 # 2 ^ 30))%Q /\
  ~ (SF2Q used - SF2Q axis == SF2Q d / 2)%Q /\
  F32.eq (F32.sub used axis) (F32.div d (F32.of_int 2)) = false.
Proof.
  cbv zeta. split; [|split].
  - vm_compute. reflexivity.
  - vm_compute. discriminate.
  - vm_compute. reflexivity.
Qed.

Lemma source_offsets j :
  1 <= j <= 1000 ->
  let d := S754_finite false 16106127 (-29) in
  F32.gt (F32.mul (idx j) d) (centre j d) = true /\
  (Qabs (SF2Q (F32.mul (idx j) d) - SF2Q (centre j d) - SF2Q d / 2)
   <= 1 # 2 ^ 19)%Q.
Proof.
  intros Hj d.
  pose (P := fun j =>
    F32.gt (F32.mul (idx j) d) (centre j d)
    && Qle_bool (Qabs (SF2Q (F32.mul (idx j) d) - SF2Q (centre j d) - SF2Q d / 2))
         (1 # 2 ^ 19)).
  assert (P j = true) as H.
  { apply (forallb_range P 1 1000); [vm_compute; reflexivity|lia]. }
  unfold P in H. apply andb_true_iff in H as [H1 H2].
  split; [exact H1|]. apply Qle_bool_iff. exact H2.
Qed.

(** C9, amended.  In every step the coordinate LOOP 8 takes the velocity
    at for row [j] is the [float] product [j * dy], not the axis value
    [y[j] = ((float) j - 0.5) * dy];  the two differ by [dy/2] up to the
    rounding of the two products: in the source configuration, for every
    interior [j], the coordinate is above the axis value and their
    difference is within [2^-19] of [dy/2]. *)
Theorem velocity_coordinate_offset (log : double -> double) (logf : float -> float)
    (exp : double -> double) (c : Config) (s : Vars) :
  declared c s -> NY c <= NX c ->
  let s0 := initialise log exp c s in
  (forall m i j, 1 <= i <= NX c -> 1 <= j <= NY c ->
     let sm := time_loop logf c m s0 in
     rd2 (dudt (step logf c sm)) i j
     = upwind c (dx s0) (dy s0)
         (streamwiseVelocity logf (F32.mul (idx j) (dy s0)))
         (apply_boundaries c (u sm)) i j /\
     rd (y sm) j = centre j (dy s0)) /\
  (c = source_config ->
   forall j, 1 <= j <= 1000 ->
     let used := F32.mul (idx j) (dy s0) in
     let axis := rd (y s0) j in
     F32.gt used axis = true /\
     (Qabs (SF2Q used - SF2Q axis - SF2Q (dy s0) / 2) <= 1 # 2 ^ 19)%Q).
Proof.
  intros D L s0.
  pose proof (declared_initialise log exp c s D) as D0. fold s0 in D0.
  destruct (initialise_spec log exp c s D) as (_ & Edy & _ & _ & Hy & _).
  fold s0 in Edy, Hy. split.
  - intros m i j Hi Hj sm.
    pose proof (declared_time_loop logf c m s0 D0) as Dm. fold sm in Dm.
    destruct (time_loop_scalars logf c m s0) as (Ex & Ey & _ & _ & Eys).
    fold sm in Ex, Ey, Eys.
    destruct (step_cells logf c sm i j Dm) as [Hd _]; [lia|lia|].
    rewrite Hd, Ex, Ey, Eys. destruct (decide _) as [_|N]; [|lia].
    split; [reflexivity|]. apply Hy; lia.
  - intros -> j Hj. cbv zeta.
    assert (NY source_config = 1000) as Ny by reflexivity.
    rewrite Hy by lia. rewrite Edy, (proj2 source_spacing).
    apply source_offsets. assumption.
Qed.

Lemma velocity_coordinate_offset_witness :
  (declared source_config (blank_vars source_config) /\
   NY source_config <= NX source_config) /\
  F32.gt
    (F32.mul (idx 500)
       (dy (initialise log_of_30 exp_tangent source_config (blank_vars source_config))))
    (rd (y (initialise log_of_30 exp_tangent source_config (blank_vars source_config)))
       500) = true.
Proof.
  split; [split; [apply declared_blank|apply Nat.le_refl]|].
  exact (proj1 (proj2
    (velocity_coordinate_offset log_of_30 logf_tangent exp_tangent source_config
       (blank_vars source_config) (declared_blank source_config) (Nat.le_refl _))
    eq_refl 500 ltac:(lia))).
Defined.

(** ** Arithmetic with zeros *)

Section ZeroArithmetic.
Variables prec emax : Z.

Lemma is_finite_sub (a b : spec_float) :
  is_finite (SFsub prec emax a b) = true ->
  is_finite a = true /\ is_finite b = true.
Proof.
  destruct a as [sa|sa| |sa ma ea], b as [sb|sb| |sb mb eb]; simpl;
    try discriminate; try (split; reflexivity);
    destruct sa, sb; simpl; discriminate.
Qed.

Lemma mul_zero_l (v w : spec_float) :
  is_zero v = true -> is_finite w = true -> is_zero (SFmul prec emax v w) = true.
Proof. destruct v, w; simpl; try discriminate; reflexivity. Qed.

Lemma mul_zero_r (v w : spec_float) :
  is_finite v = true -> is_zero w = true -> is_zero (SFmul prec emax v w) = true.
Proof. destruct v, w; simpl; try discriminate; reflexivity. Qed.

Lemma div_zero_l (v d : spec_float) :
  is_zero v = true -> is_zero d = false -> is_nan d = false ->
  is_zero (SFdiv prec emax v d) = true.
Proof. destruct v, d; simpl; try discriminate; reflexivity. Qed.

Lemma add_zero_zero (a b : spec_float) :
  is_zero a = true -> is_zero b = true -> is_zero (SFadd prec emax a b) = true.
Proof.
  destruct a as [sa| | |], b as [sb| | |]; simpl; try discriminate.
  destruct sa, sb; reflexivity.
Qed.

Lemma add_zero_r (a z : spec_float) :
  is_finite a = true -> is_zero z = true ->
  same_value (SFadd prec emax a z) a.
Proof.
  destruct a as [sa| | |sa ma ea], z as [sz| | |]; simpl; try discriminate;
    intros _ _.
  - right. destruct sa, sz; split; reflexivity.
  - left. reflexivity.
Qed.

Lemma is_finite_sub_same_value (a a' b b' : spec_float) :
  same_value a a' -> same_value b b' ->
  is_finite (SFsub prec emax a b) = is_finite (SFsub prec emax a' b').
Proof.
  intros [->|[Za Za']] [->|[Zb Zb']]; try reflexivity.
  - destruct b as [sb| | |]; try discriminate.
    destruct b' as [sb'| | |]; try discriminate.
    destruct a' as [sa|sa| |sa ma ea]; simpl; try reflexivity.
    destruct sa, sb, sb'; reflexivity.
  - destruct a as [sa| | |]; try discriminate.
    destruct a' as [sa'| | |]; try discriminate.
    destruct b' as [sb|sb| |sb mb eb]; simpl; try reflexivity.
    destruct sa, sa', sb; reflexivity.
  - destruct a as [sa| | |]; try discriminate.
    destruct a' as [sa'| | |]; try discriminate.
    destruct b as [sb| | |]; try discriminate.
    destruct b' as [sb'| | |]; try discriminate.
    destruct sa, sa', sb, sb'; reflexivity.
Qed.
End ZeroArithmetic.

Lemma same_value_refl a : same_value a a.
Proof. left. reflexivity. Qed.

Lemma same_value_sym a b : same_value a b -> same_value b a.
Proof. intros [->|[Za Zb]]; [left; reflexivity|right; split; assumption]. Qed.

Lemma same_value_trans a b c : same_value a b -> same_value b c -> same_value a c.
Proof.
  intros [->|[Za Zb]] [->|[Zb' Zc]].
  - left. reflexivity.
  - right. split; assumption.
  - right. split; assumption.
  - right. split; assumption.
Qed.

Lemma same_value_eq a b : same_value a b -> is_nan b = false -> F32.eq a b = true.
Proof.
  intros [->|[Za Zb]] N.
  - apply SFeqb_refl. assumption.
  - destruct a, b; try discriminate. reflexivity.
Qed.

(** With no velocity the backward difference is a zero, and the update
    leaves the value of the cell. *)
Lemma still_cell c (dx dy dt v a al ad : float) :
  is_zero v = true -> is_zero (vely c) = true ->
  is_zero dx = false -> is_nan dx = false ->
  is_zero dy = false -> is_nan dy = false ->
  is_finite dt = true ->
  is_finite (F32.sub a al) = true -> is_finite (F32.sub a ad) = true ->
  same_value
    (F32.add a
       (F32.mul
          (F32.mul (F32.of_int (-1))
             (F32.add (F32.div (F32.mul v (F32.sub a al)) dx)
                      (F32.div (F32.mul (vely c) (F32.sub a ad)) dy)))
          dt))
    a.
Proof.
  intros Hv Hw Zx Nx Zy Ny Ft Fl Fd.
  apply add_zero_r.
  - apply (is_finite_sub F32.prec F32.emax a al Fl).
  - apply mul_zero_l; [|exact Ft].
    apply mul_zero_r; [reflexivity|].
    apply add_zero_zero; apply div_zero_l; try assumption;
      apply mul_zero_l; assumption.
Qed.

(** ** A field at rest *)

Section Still.
Variable logf : float -> float.
Variable c : Config.
Variable s : Vars.
Hypothesis D : declared c s.
Hypothesis Hvely : is_zero (vely c) = true.
Hypothesis Hvel : forall j, 1 <= j <= NY c ->
  is_zero (streamwiseVelocity logf (F32.mul (idx j) (dy s))) = true.
Hypothesis Zdx : is_zero (dx s) = false.
Hypothesis Ndx : is_nan (dx s) = false.
Hypothesis Zdy : is_zero (dy s) = false.
Hypothesis Ndy : is_nan (dy s) = false.
Hypothesis Fdt : is_finite (dt s) = true.
Hypothesis Hfin : forall i j, 1 <= i <= NX c -> 1 <= j <= NY c ->
  is_finite (F32.sub (rd2 (apply_boundaries c (u s)) i j)
                     (rd2 (apply_boundaries c (u s)) (i - 1) j)) = true /\
  is_finite (F32.sub (rd2 (apply_boundaries c (u s)) i j)
                     (rd2 (apply_boundaries c (u s)) i (j - 1))) = true.

(** Under the boundary values the field keeps its values from step to
    step. *)
Lemma still_invariant n i j :
  i < NX c + 2 -> j < NY c + 2 ->
  same_value (rd2 (apply_boundaries c (u (time_loop logf c n s))) i j)
             (rd2 (apply_boundaries c (u s)) i j).
Proof.
  revert i j. induction n as [|n IH]; intros i j Hi Hj.
  - apply same_value_refl.
  - rewrite time_loop_S.
    pose proof (declared_time_loop logf c n s D) as Dn.
    destruct (time_loop_scalars logf c n s) as (Ex & Ey & Et & _).
    set (sn := time_loop logf c n s) in *.
    pose proof (declared_step logf c sn Dn) as Dn'.
    rewrite (apply_boundaries_spec c (u (step logf c sn)) i j (decl_u _ _ Dn') Hi Hj).
    rewrite (apply_boundaries_spec c (u s) i j (decl_u _ _ D) Hi Hj).
    repeat case_decide; try apply same_value_refl.
    destruct (step_cells logf c sn i j Dn Hi Hj) as [Hd Hu].
    destruct (decide _) as [_|N]; [|lia].
    rewrite Hu, Hd, Ex, Ey, Et. unfold upwind.
    assert (same_value (rd2 (apply_boundaries c (u sn)) i j) (rd2 (u s) i j)) as Hc.
    { specialize (IH i j Hi Hj).
      rewrite (apply_boundaries_spec c (u s) i j (decl_u _ _ D) Hi Hj) in IH.
      repeat case_decide; try lia. exact IH. }
    refine (same_value_trans _ _ _ _ Hc).
    destruct (Hfin i j) as [Fl Fd]; [lia|lia|].
    apply still_cell; try assumption.
    + apply Hvel. lia.
    + rewrite <- Fl. apply is_finite_sub_same_value; apply IH; lia.
    + rewrite <- Fd. apply is_finite_sub_same_value; apply IH; lia.
Qed.

Lemma still_interior n i j :
  1 <= i <= NX c -> 1 <= j <= NY c ->
  same_value (rd2 (u (time_loop logf c n s)) i j) (rd2 (u s) i j).
Proof.
  intros Hi Hj.
  pose proof (still_invariant n i j ltac:(lia) ltac:(lia)) as H.
  pose proof (declared_time_loop logf c n s D) as Dn.
  rewrite (apply_boundaries_spec c _ i j (decl_u _ _ Dn)) in H by lia.
  rewrite (apply_boundaries_spec c _ i j (decl_u _ _ D)) in H by lia.
  repeat case_decide; try lia. exact H.
Qed.

Lemma still_interior_eq n i j :
  1 <= i <= NX c -> 1 <= j <= NY c ->
  F32.eq (rd2 (u (time_loop logf c n s)) i j) (rd2 (u s) i j) = true.
Proof.
  intros Hi Hj. apply same_value_eq; [apply still_interior; assumption|].
  destruct (Hfin i j Hi Hj) as [Fl _].
  apply is_finite_sub in Fl as [Fa _].
  rewrite (apply_boundaries_spec c _ i j (decl_u _ _ D)) in Fa by lia.
  repeat case_decide; try lia.
  destruct (rd2 (u s) i j); try discriminate; reflexivity.
Qed.

Lemma still_ghost n i j :
  i < NX c + 2 -> j < NY c + 2 ->
  ~ (1 <= i <= NX c /\ 1 <= j <= NY c) ->
  rd2 (u (time_loop logf c (S n) s)) i j = rd2 (apply_boundaries c (u s)) i j.
Proof.
  intros Hi Hj N. rewrite time_loop_S.
  pose proof (declared_time_loop logf c n s D) as Dn.
  rewrite step_ghost_cells by (try assumption; lia).
  rewrite (apply_boundaries_spec c _ i j (decl_u _ _ Dn)) by lia.
  rewrite (apply_boundaries_spec c _ i j (decl_u _ _ D)) by lia.
  index_cases.
Qed.
End Still.

Lemma declared_calm : declared calm_config calm_vars.
Proof.
  split; try reflexivity; (split; [reflexivity|]); repeat constructor.
Qed.

(** A value that compares equal to a zero is a zero. *)
Lemma eq_zero_is_zero (z v : float) :
  is_zero z = true -> F32.eq z v = true -> is_zero v = true.
Proof.
  destruct z as [sz| | |]; try discriminate. intros _.
  destruct v as [sv|sv| |sv mv ev]; simpl; try reflexivity;
    unfold F32.eq, SFeqb; simpl; try discriminate;
    destruct sv; discriminate.
Qed.

(** C6, as stated, fails at the ghost cells.  In a configuration with no
    cross-stream velocity whose rows all lie at or below the threshold the
    velocity is zero on every row, whatever [logf] is, and yet the first
    step replaces the ghost cell [u[0][0]] by the boundary value [0.0]:
    on the field [1.0], and on the Gaussian field of the set-up as soon as
    [exp] does not return zero there. *)
Lemma still_field_counterexample :
  F32.eq (vely calm_config) (F32.of_int 0) = true /\
  (forall (logf : float -> float) j, 1 <= j <= NY calm_config ->
     streamwiseVelocity logf (F32.mul (idx j) (dy calm_vars)) = F32.of_int 0) /\
  ~ (exists logf : float -> float,
       F32.eq (rd2 (u (time_loop logf calm_config 1 calm_vars)) 0 0)
              (rd2 (u calm_vars) 0 0) = true) /\
  ~ (exists (log exp : double -> double) (logf : float -> float),
       let s0 := initialise log exp calm_config (blank_vars calm_config) in
       is_zero (rd2 (u s0) 0 0) = false /\
       F32.eq (rd2 (u (time_loop logf calm_config 1 s0)) 0 0)
              (rd2 (u s0) 0 0) = true).
Proof.
  split; [reflexivity|]. split; [|split].
  - intros logf j Hj. simpl in Hj.
    assert (j = 1 \/ j = 2) as [-> | ->] by lia; reflexivity.
  - intros [logf H]. vm_compute in H. discriminate.
  - intros (log & exp & logf & Hz & He). cbv zeta in Hz, He.
    pose proof (declared_initialise log exp calm_config _
                  (declared_blank calm_config)) as D0.
    rewrite (still_ghost logf calm_config _ D0 0 0 0) in He
      by (simpl; lia).
    rewrite (apply_boundaries_spec calm_config _ 0 0 (decl_u _ _ D0)) in He
      by (simpl; lia).
    simpl in He.
    apply eq_zero_is_zero in He; [|reflexivity].
    discriminate (eq_trans (eq_sym He) Hz).
Qed.

(** C6, amended.  If [vely] is zero and [streamwiseVelocity] returns zero
    at the coordinate [j * dy] of every interior row, then after any
    number of steps every interior cell [u[i][j]] ([1 <= i <= NX],
    [1 <= j <= NY]) compares equal to its initial value, provided [dx] and
    [dy] are neither zero nor NaN, [dt] is finite and the differences
    between neighbouring cells, taken under the boundary values, are
    finite.  The ghost cells take the boundary values in the first step,
    and from then on the whole of [u] keeps its values. *)
Theorem still_field_interior (logf : float -> float) (c : Config) (s : Vars) :
  declared c s ->
  is_zero (vely c) = true ->
  (forall j, 1 <= j <= NY c ->
     is_zero (streamwiseVelocity logf (F32.mul (idx j) (dy s))) = true) ->
  is_zero (dx s) = false -> is_nan (dx s) = false ->
  is_zero (dy s) = false -> is_nan (dy s) = false ->
  is_finite (dt s) = true ->
  (forall i j, 1 <= i <= NX c -> 1 <= j <= NY c ->
     is_finite (F32.sub (rd2 (apply_boundaries c (u s)) i j)
                        (rd2 (apply_boundaries c (u s)) (i - 1) j)) = true /\
     is_finite (F32.sub (rd2 (apply_boundaries c (u s)) i j)
                        (rd2 (apply_boundaries c (u s)) i (j - 1))) = true) ->
  forall n,
    (forall i j, 1 <= i <= NX c -> 1 <= j <= NY c ->
       F32.eq (rd2 (u (time_loop logf c n s)) i j) (rd2 (u s) i j) = true /\
       same_value (rd2 (u (time_loop logf c n s)) i j) (rd2 (u s) i j)) /\
    (forall i j, i <= NX c + 1 -> j <= NY c + 1 ->
       same_value (rd2 (u (time_loop logf c (S n) s)) i j)
                  (rd2 (u (time_loop logf c 1 s)) i j)).
Proof.
  intros D Hw Hv Zx Nx Zy Ny Ft Hf n. split.
  - intros i j Hi Hj. split.
    + apply still_interior_eq; assumption.
    + apply still_interior; assumption.
  - intros i j Hi Hj.
    destruct (decide (1 <= i <= NX c /\ 1 <= j <= NY c)) as [[Ii Ij]|N].
    + apply same_value_trans with (rd2 (u s) i j).
      * apply still_interior; assumption.
      * apply same_value_sym, still_interior; assumption.
    + rewrite (still_ghost logf c s D n i j) by (try assumption; lia).
      rewrite (still_ghost logf c s D 0 i j) by (try assumption; lia).
      apply same_value_refl.
Qed.

Lemma still_field_interior_witness :
  F32.eq (rd2 (u (time_loop logf_tangent calm_config 3 calm_vars)) 1 2)
         (rd2 (u calm_vars) 1 2) = true.
Proof.
  refine (proj1 (proj1 (still_field_interior logf_tangent calm_config calm_vars
                   declared_calm eq_refl _ eq_refl eq_refl eq_refl eq_refl eq_refl _ 3)
            1 2 _ _)).
  - intros j Hj. simpl in Hj.
    assert (j = 1 \/ j = 2) as [-> | ->] by lia; reflexivity.
  - intros i j Hi Hj. simpl in Hi, Hj.
    assert (i = 1 \/ i = 2) as [-> | ->] by lia;
      (assert (j = 1 \/ j = 2) as [-> | ->] by lia); split; reflexivity.
  - simpl. lia.
  - simpl. lia.
Defined.

(** ** Further properties of the program *)

(** Grids of one shape with the same cells are equal. *)
Lemma grid_ext nx ny (g h : grid) :
  grid_shape nx ny g -> grid_shape nx ny h ->
  (forall i j, i < nx + 2 -> j < ny + 2 -> rd2 g i j = rd2 h i j) ->
  g = h.
Proof.
  intros [Lg Rg]%grid_shape_rows [Lh Rh]%grid_shape_rows E.
  apply list_eq; intros i.
  destruct (le_lt_dec (nx + 2) i) as [O|I].
  - rewrite !(lookup_ge_None_2) by lia. reflexivity.
  - destruct (lookup_lt_is_Some_2 g i) as [r Er]; [lia|].
    destruct (lookup_lt_is_Some_2 h i) as [t Et]; [lia|].
    rewrite Er, Et. f_equal. apply list_eq; intros j.
    pose proof (Rg _ _ Er) as Lr. pose proof (Rh _ _ Et) as Lt.
    destruct (le_lt_dec (ny + 2) j) as [O|J].
    + rewrite !(lookup_ge_None_2) by lia. reflexivity.
    + specialize (E i j I J). unfold rd2, rd, row in E. rewrite Er, Et in E.
      simpl in E.
      destruct (lookup_lt_is_Some_2 r j) as [a Ea]; [lia|].
      destruct (lookup_lt_is_Some_2 t j) as [b Eb]; [lia|].
      rewrite Ea, Eb in *. simpl in E. congruence.
Qed.

(** A loop that prints a block of rows per index. *)
Lemma for_loop_blocks {B : Type} (h : nat -> list B) lo hi (file : list B) :
  for_loop lo hi (fun i file => file ++ h i) file
  = file ++ concat (map h (seq lo (hi - lo))).
Proof.
  unfold for_loop. generalize (seq lo (hi - lo)) file. intros js.
  induction js as [|j js IH]; intros f; simpl.
  - rewrite app_nil_r. reflexivity.
  - rewrite IH, <- app_assoc. reflexivity.
Qed.

(** X1.  With [nsteps = 0] the body of the time loop, boundary phase
    included, never runs: [main] ends with the variables the set-up left,
    and [final.dat] has the rows of [initial.dat]. *)
Theorem no_step_no_change (log : double -> double) (logf : float -> float)
    (exp : double -> double) (c : Config) (s : Vars) :
  nsteps c = 0 ->
  let out := main log logf exp c s in
  fst out = initialise log exp c s /\
  final_dat (snd out) = initial_dat (snd out).
Proof.
  intros E. unfold main. cbv zeta. simpl. rewrite E. split; reflexivity.
Qed.

Lemma no_step_no_change_witness :
  nsteps idle_config = 0 /\
  fst (main log_tangent logf_tangent exp_tangent idle_config demo_vars)
  = initialise log_tangent exp_tangent idle_config demo_vars.
Proof.
  split; [reflexivity|].
  exact (proj1 (no_step_no_change log_tangent logf_tangent exp_tangent
                  idle_config demo_vars eq_refl)).
Defined.

(** X2.  The time loop assigns [u] and [dudt] only: the axes [x] and [y]
    and the scalars [dx], [dy] and [dt] are the same after any number of
    steps. *)
Theorem time_loop_frame (logf : float -> float) (c : Config) (s : Vars) (n : nat) :
  let s' := time_loop logf c n s in
  x s' = x s /\ y s' = y s /\ dx s' = dx s /\ dy s' = dy s /\ dt s' = dt s.
Proof.
  destruct (time_loop_scalars logf c n s) as (Ex & Ey & Et & Exs & Eys).
  cbv zeta. repeat split; assumption.
Qed.

(** X4.  The boundary phase writes ghost cells only and is idempotent:
    an interior cell keeps its value, and applying the phase twice gives
    what applying it once gives. *)
Theorem boundary_phase_idempotent (c : Config) (g : grid) :
  grid_shape (NX c) (NY c) g ->
  (forall i j, 1 <= i <= NX c -> 1 <= j <= NY c ->
     rd2 (apply_boundaries c g) i j = rd2 g i j) /\
  apply_boundaries c (apply_boundaries c g) = apply_boundaries c g.
Proof.
  intros Sh. pose proof (apply_boundaries_shape c g Sh) as Sh'. split.
  - intros i j Hi Hj. rewrite apply_boundaries_spec by (try assumption; lia).
    index_cases.
  - apply (grid_ext (NX c) (NY c)); try assumption.
    + apply apply_boundaries_shape, Sh'.
    + intros i j Hi Hj. rewrite !apply_boundaries_spec by assumption.
      index_cases.
Qed.

Lemma boundary_phase_idempotent_witness :
  grid_shape (NX demo_config) (NY demo_config) (u demo_vars) /\
  apply_boundaries demo_config (apply_boundaries demo_config (u demo_vars))
  = apply_boundaries demo_config (u demo_vars).
Proof.
  split; [exact (decl_u _ _ declared_demo)|].
  exact (proj2 (boundary_phase_idempotent demo_config (u demo_vars)
                  (decl_u _ _ declared_demo))).
Defined.

(** X5.  A snapshot file has one row [x[i] y[j] u[i][j]] per point of the
    [(NX+2) x (NY+2)] array, in the order of the nested loops: [i] outside,
    [j] inside. *)
Theorem snapshot_rows (c : Config) (s : Vars) :
  snapshot c s
  = concat (map (fun i => map (fun j => (rd (x s) i, rd (y s) j, rd2 (u s) i j))
                            (seq 0 (NY c + 2)))
              (seq 0 (NX c + 2))) /\
  length (snapshot c s) = (NX c + 2) * (NY c + 2).
Proof.
  assert (snapshot c s
          = concat (map (fun i => map (fun j => (rd (x s) i, rd (y s) j, rd2 (u s) i j))
                                    (seq 0 (NY c + 2)))
                      (seq 0 (NX c + 2)))) as E.
  { unfold snapshot.
    rewrite (for_loop_ext 0 (NX c + 2) _
      (fun i file => file ++ map (fun j => (rd (x s) i, rd (y s) j, rd2 (u s) i j))
                               (seq 0 (NY c + 2)))).
    - rewrite for_loop_blocks, Nat.sub_0_r. reflexivity.
    - intros i t _. rewrite for_loop_rows, Nat.sub_0_r. reflexivity. }
  split; [exact E|]. rewrite E. clear E.
  generalize (NX c + 2). intros n.
  induction n as [|n IH].
  - reflexivity.
  - rewrite seq_S, map_app, concat_app, length_app, IH.
    cbn [map concat Nat.add]. rewrite app_nil_r, length_map, length_seq. lia.
Qed.

(** X6.  LOOP 8 writes the interior of [dudt] only: its ghost entries are
    never assigned and hold after any number of steps what the memory held
    at the start. *)
Theorem dudt_ghost_never_written (logf : float -> float) (c : Config) (s : Vars)
    (n i j : nat) :
  declared c s -> i <= NX c + 1 -> j <= NY c + 1 ->
  ~ (1 <= i <= NX c /\ 1 <= j <= NY c) ->
  rd2 (dudt (time_loop logf c n s)) i j = rd2 (dudt s) i j.
Proof.
  intros D Hi Hj N. induction n as [|n IH]; [reflexivity|].
  rewrite time_loop_S.
  pose proof (declared_time_loop logf c n s D) as Dn.
  destruct (step_cells logf c (time_loop logf c n s) i j Dn) as [Hd _];
    [lia|lia|].
  rewrite Hd. destruct (decide _); [lia|exact IH].
Qed.

Lemma dudt_ghost_never_written_witness :
  declared demo_config demo_vars /\
  rd2 (dudt (time_loop logf_tangent demo_config 2 demo_vars)) 0 3 = S754_nan.
Proof.
  split; [exact declared_demo|].
  refine (dudt_ghost_never_written logf_tangent demo_config demo_vars 2 0 3
            declared_demo _ _ _); simpl; lia.
Defined.

(** X7.  The backward differences read the left and the lower neighbour
    only, so nothing downstream reaches a cell: two runs that agree on the
    interior cells of the box [1..I] x [1..J], on the left and lower
    boundary values, on [vely] and on the steps [dx], [dy], [dt] agree on
    that box after any number of steps, whatever the cells to the right of
    and above the box and the right and upper boundary values are. *)
Theorem upwind_ignores_downstream (logf : float -> float) (c c' : Config)
    (s s' : Vars) (I J n : nat) :
  declared c s -> declared c' s' ->
  NX c = NX c' -> NY c = NY c' -> vely c = vely c' ->
  bval_left c = bval_left c' -> bval_lower c = bval_lower c' ->
  dx s = dx s' -> dy s = dy s' -> dt s = dt s' ->
  I <= NX c -> J <= NY c ->
  (forall i j, 1 <= i <= I -> 1 <= j <= J -> rd2 (u s) i j = rd2 (u s') i j) ->
  forall i j, 1 <= i <= I -> 1 <= j <= J ->
    rd2 (u (time_loop logf c n s)) i j = rd2 (u (time_loop logf c' n s')) i j.
Proof.
  intros D D' Ex Ey Ev El Ew Edx Edy Edt HI HJ H0.
  induction n as [|n IH]; [exact H0|].
  intros i j Hi Hj. rewrite !time_loop_S.
  pose proof (declared_time_loop logf c n s D) as Dn.
  pose proof (declared_time_loop logf c' n s' D') as Dn'.
  destruct (time_loop_scalars logf c n s) as (Sx & Sy & St & _).
  destruct (time_loop_scalars logf c' n s') as (Sx' & Sy' & St' & _).
  set (sn := time_loop logf c n s) in *.
  set (sn' := time_loop logf c' n s') in *.
  assert (forall a b, a <= I -> b <= J -> ~ (a = 0 /\ b = 0) ->
            rd2 (apply_boundaries c (u sn)) a b
            = rd2 (apply_boundaries c' (u sn')) a b) as B.
  { intros a b Ha Hb N.
    rewrite (apply_boundaries_spec c _ a b (decl_u _ _ Dn)) by lia.
    rewrite (apply_boundaries_spec c' _ a b (decl_u _ _ Dn')) by lia.
    repeat case_decide; try lia; try congruence. apply IH; lia. }
  destruct (step_cells logf c sn i j Dn) as [Hd Hu]; [lia|lia|].
  destruct (step_cells logf c' sn' i j Dn') as [Hd' Hu']; [lia|lia|].
  rewrite Hu, Hu', Hd, Hd'.
  destruct (decide _) as [_|N]; [|lia]. destruct (decide _) as [_|N]; [|lia].
  unfold upwind.
  rewrite Sx, Sy, St, Sx', Sy', St', <- Edx, <- Edy, <- Edt, <- Ev.
  rewrite !(B i j), !(B (i - 1) j), !(B i (j - 1)) by lia.
  reflexivity.
Qed.

Lemma upwind_ignores_downstream_witness :
  bval_right demo_config <> bval_right demo_config_far /\
  rd2 (u (time_loop logf_tangent demo_config 2 demo_vars)) 2 2
  = rd2 (u (time_loop logf_tangent demo_config_far 2 demo_vars)) 2 2.
Proof.
  split; [discriminate|].
  refine (upwind_ignores_downstream logf_tangent demo_config demo_config_far
            demo_vars demo_vars 2 2 2 declared_demo _
            eq_refl eq_refl eq_refl eq_refl eq_refl eq_refl eq_refl eq_refl
            _ _ (fun _ _ _ _ => eq_refl) 2 2 _ _); try (simpl; lia).
  split; try reflexivity; (split; [reflexivity|]); repeat constructor.
Defined.

(** The field after a step is a function of the field before it and of
    the steps [dx], [dy], [dt]: LOOP 9 reads the entries of [dudt] LOOP 8
    has just written. *)
Lemma step_field_agrees (logf : float -> float) c s s' :
  declared c s -> declared c s' ->
  u s = u s' -> dx s = dx s' -> dy s = dy s' -> dt s = dt s' ->
  u (step logf c s) = u (step logf c s').
Proof.
  intros D D' Eu Ex Ey Et.
  apply (grid_ext (NX c) (NY c)).
  - apply (decl_u _ _ (declared_step logf c s D)).
  - apply (decl_u _ _ (declared_step logf c s' D')).
  - intros i j Hi Hj.
    destruct (step_cells logf c s i j D Hi Hj) as [Hd Hu].
    destruct (step_cells logf c s' i j D' Hi Hj) as [Hd' Hu'].
    rewrite Hu, Hu'. destruct (decide _) as [_|N].
    + rewrite Hd, Hd', Eu, Ex, Ey, Et. reflexivity.
    + rewrite Eu. reflexivity.
Qed.

Lemma time_loop_field_agrees (logf : float -> float) c n s s' :
  declared c s -> declared c s' ->
  u s = u s' -> dx s = dx s' -> dy s = dy s' -> dt s = dt s' ->
  u (time_loop logf c n s) = u (time_loop logf c n s').
Proof.
  intros D D' Eu Ex Ey Et. induction n as [|n IH]; [exact Eu|].
  rewrite !time_loop_S.
  destruct (time_loop_scalars logf c n s) as (Sx & Sy & St & _).
  destruct (time_loop_scalars logf c n s') as (Sx' & Sy' & St' & _).
  apply step_field_agrees; try apply declared_time_loop; try assumption;
    congruence.
Qed.

Lemma snapshot_concat c s :
  snapshot c s
  = concat (map (fun i => map (fun j => (rd (x s) i, rd (y s) j, rd2 (u s) i j))
                            (seq 0 (NY c + 2)))
              (seq 0 (NX c + 2))).
Proof.
  unfold snapshot.
  rewrite (for_loop_ext 0 (NX c + 2) _
    (fun i file => file ++ map (fun j => (rd (x s) i, rd (y s) j, rd2 (u s) i j))
                             (seq 0 (NY c + 2)))).
  - rewrite for_loop_blocks, Nat.sub_0_r. reflexivity.
  - intros i t _. rewrite for_loop_rows, Nat.sub_0_r. reflexivity.
Qed.

Lemma snapshot_agrees c s s' :
  x s = x s' -> u s = u s' ->
  (forall j, j < NY c + 2 -> rd (y s) j = rd (y s') j) ->
  snapshot c s = snapshot c s'.
Proof.
  intros Ex Eu Ey. rewrite !snapshot_concat, Ex, Eu. f_equal.
  apply map_ext; intros i. apply map_ext_in; intros j Hj.
  apply in_seq in Hj. rewrite Ey by lia. reflexivity.
Qed.

Lemma fill_axis_full n d (a : array) :
  length a = n + 2 -> fill_axis n d a = map (fun i => centre i d) (seq 0 (n + 2)).
Proof.
  intros L. apply list_eq; intros k.
  rewrite fill_axis_eq, list_lookup_imap, list_lookup_fmap.
  destruct (le_lt_dec (n + 2) k) as [O|I].
  - rewrite (lookup_ge_None_2 a) by lia.
    rewrite lookup_ge_None_2 by (rewrite length_seq; lia). reflexivity.
  - destruct (lookup_lt_is_Some_2 a k) as [v ->]; [lia|].
    rewrite lookup_seq_lt by lia. simpl.
    destruct (decide _); [reflexivity|lia].
Qed.

(** The set-up writes every cell of [u] and every entry of the axes it
    reads: nothing is left of the memory it started from. *)
Lemma initialise_agrees (log exp : double -> double) c s s' :
  declared c s -> declared c s' ->
  let s0 := initialise log exp c s in
  let s0' := initialise log exp c s' in
  x s0 = x s0' /\ u s0 = u s0' /\
  (forall j, j < NY c + 2 -> rd (y s0) j = rd (y s0') j) /\
  dx s0 = dx s0' /\ dy s0 = dy s0' /\ dt s0 = dt s0'.
Proof.
  intros D D' s0 s0'.
  assert (x s0 = x s0') as Ex.
  { unfold s0, s0'. simpl.
    rewrite !fill_axis_full by (apply decl_x; assumption). reflexivity. }
  assert (forall j, j < NY c + 2 -> rd (y s0) j = rd (y s0') j) as Ey.
  { intros j Hj. unfold s0, s0'. simpl. rewrite !fill_axis_eq. unfold rd.
    rewrite !list_lookup_imap.
    destruct (le_lt_dec (NX c + 2) j) as [O|I].
    - rewrite !lookup_ge_None_2
        by (first [rewrite (decl_y _ _ D) | rewrite (decl_y _ _ D')]; lia).
      reflexivity.
    - destruct (lookup_lt_is_Some_2 (y s) j) as [v ->];
        [rewrite (decl_y _ _ D); lia|].
      destruct (lookup_lt_is_Some_2 (y s') j) as [v' ->];
        [rewrite (decl_y _ _ D'); lia|].
      simpl. destruct (decide _); [reflexivity|lia]. }
  repeat split; try assumption; try reflexivity.
  apply (grid_ext (NX c) (NY c)).
  - apply (decl_u _ _ (declared_initialise log exp c s D)).
  - apply (decl_u _ _ (declared_initialise log exp c s' D')).
  - intros i j Hi Hj.
    destruct (initialise_spec log exp c s D) as (_ & _ & _ & _ & _ & Hu).
    destruct (initialise_spec log exp c s' D') as (_ & _ & _ & _ & _ & Hu').
    fold s0 in Hu. fold s0' in Hu'.
    rewrite Hu, Hu' by assumption. rewrite Ex, (Ey j Hj). reflexivity.
Qed.

(** X8.  What [main] writes to its three files does not depend on what
    the memory of its arrays held before: every entry the program reads
    has been written by it first.  The final [u] and [x] are independent of
    it too.  ([NY <= NX]: the [NY+2] entries of the y axis fit in [y].) *)
Theorem output_ignores_initial_memory (log : double -> double)
    (logf : float -> float) (exp : double -> double) (c : Config) (s s' : Vars) :
  declared c s -> declared c s' -> NY c <= NX c ->
  snd (main log logf exp c s) = snd (main log logf exp c s') /\
  u (fst (main log logf exp c s)) = u (fst (main log logf exp c s')) /\
  x (fst (main log logf exp c s)) = x (fst (main log logf exp c s')).
Proof.
  intros D D' L.
  destruct (initialise_agrees log exp c s s' D D') as (Ex & Eu & Ey & Edx & Edy & Edt).
  pose proof (declared_initialise log exp c s D) as D0.
  pose proof (declared_initialise log exp c s' D') as D0'.
  set (s0 := initialise log exp c s) in *.
  set (s0' := initialise log exp c s') in *.
  pose proof (time_loop_field_agrees logf c (nsteps c) s0 s0' D0 D0' Eu Edx Edy Edt)
    as Ef.
  destruct (time_loop_scalars logf c (nsteps c) s0) as (_ & _ & _ & Fx & Fy).
  destruct (time_loop_scalars logf c (nsteps c) s0') as (_ & _ & _ & Fx' & Fy').
  unfold main. cbv zeta. fold s0 s0'. simpl fst. simpl snd.
  split; [|split].
  - f_equal.
    + apply snapshot_agrees; assumption.
    + apply snapshot_agrees; [congruence|assumption|].
      intros j Hj. rewrite Fy, Fy'. apply Ey. assumption.
    + rewrite !averages_eq, Ef, Fx, Fx', Ex. reflexivity.
  - exact Ef.
  - congruence.
Qed.

Lemma output_ignores_initial_memory_witness :
  u demo_vars <> u (blank_vars demo_config) /\
  snd (main log_tangent logf_tangent exp_tangent demo_config demo_vars)
  = snd (main log_tangent logf_tangent exp_tangent demo_config
           (blank_vars demo_config)).
Proof.
  split; [discriminate|].
  exact (proj1 (output_ignores_initial_memory log_tangent logf_tangent exp_tangent
                  demo_config demo_vars (blank_vars demo_config)
                  declared_demo (declared_blank demo_config) (Nat.le_refl _))).
Defined.

(** ** A uniform field *)

(** The difference of two values that both compare equal to a finite [k]
    is a zero. *)
Lemma sub_same_value_zero prec emax (k a b : spec_float) :
  is_finite k = true -> same_value a k -> same_value b k ->
  is_zero (SFsub prec emax a b) = true.
Proof.
  intros Fk [->|[Za Zk]] [->|[Zb Zk']].
  - destruct k as [sk| | |sk mk ek]; try discriminate.
    + destruct sk; reflexivity.
    + unfold SFsub. rewrite Z.sub_diag. reflexivity.
  - destruct k as [sk| | |]; try discriminate.
    destruct b as [sb| | |]; try discriminate. destruct sb, sk; reflexivity.
  - destruct k as [sk| | |]; try discriminate.
    destruct a as [sa| | |]; try discriminate. destruct sa, sk; reflexivity.
  - destruct a as [sa| | |]; try discriminate.
    destruct b as [sb| | |]; try discriminate. destruct sa, sb; reflexivity.
Qed.

Lemma same_value_finite a k : same_value a k -> is_finite k = true -> is_finite a = true.
Proof.
  intros [->|[Za _]] F; [exact F|]. destruct a; try discriminate. reflexivity.
Qed.

(** On a uniform field both differences vanish, and the update leaves the
    value of the cell whatever the velocities are. *)
Lemma uniform_cell c (dx dy dt v k a al ad : float) :
  is_finite k = true -> same_value a k -> same_value al k -> same_value ad k ->
  is_finite v = true -> is_finite (vely c) = true ->
  is_zero dx = false -> is_nan dx = false ->
  is_zero dy = false -> is_nan dy = false ->
  is_finite dt = true ->
  same_value
    (F32.add a
       (F32.mul
          (F32.mul (F32.of_int (-1))
             (F32.add (F32.div (F32.mul v (F32.sub a al)) dx)
                      (F32.div (F32.mul (vely c) (F32.sub a ad)) dy)))
          dt))
    a.
Proof.
  intros Fk Ha Hl Hd Fv Fw Zx Nx Zy Ny Ft.
  apply add_zero_r; [apply (same_value_finite a k); assumption|].
  apply mul_zero_l; [|exact Ft].
  apply mul_zero_r; [reflexivity|].
  apply add_zero_zero; apply div_zero_l; try assumption;
    apply mul_zero_r; try assumption;
    apply (sub_same_value_zero F32.prec F32.emax k); assumption.
Qed.

(** X9.  A uniform field is a fixed point of the scheme: if every cell
    of [u] and the four boundary values are one finite value [k], then
    after any number of steps every cell, ghost cells included, still
    compares equal to [k] (and is [k] itself unless [k] is a zero), for
    any finite velocities, provided [dx] and [dy] are neither zero nor NaN
    and [dt] is finite. *)
Theorem uniform_field_is_kept (logf : float -> float) (c : Config) (s : Vars)
    (k : float) :
  declared c s -> is_finite k = true ->
  bval_left c = k -> bval_right c = k -> bval_lower c = k -> bval_upper c = k ->
  (forall i j, i <= NX c + 1 -> j <= NY c + 1 -> rd2 (u s) i j = k) ->
  is_finite (vely c) = true ->
  (forall j, 1 <= j <= NY c ->
     is_finite (streamwiseVelocity logf (F32.mul (idx j) (dy s))) = true) ->
  is_zero (dx s) = false -> is_nan (dx s) = false ->
  is_zero (dy s) = false -> is_nan (dy s) = false ->
  is_finite (dt s) = true ->
  forall n i j, i <= NX c + 1 -> j <= NY c + 1 ->
    F32.eq (rd2 (u (time_loop logf c n s)) i j) k = true /\
    (is_zero k = false -> rd2 (u (time_loop logf c n s)) i j = k).
Proof.
  intros D Fk Bl Br Bw Bu H0 Fw Fv Zx Nx Zy Ny Ft n.
  assert (forall i j, i <= NX c + 1 -> j <= NY c + 1 ->
            same_value (rd2 (u (time_loop logf c n s)) i j) k) as Inv.
  { induction n as [|n IH]; intros i j Hi Hj.
    - rewrite H0 by assumption. apply same_value_refl.
    - rewrite time_loop_S.
      pose proof (declared_time_loop logf c n s D) as Dn.
      destruct (time_loop_scalars logf c n s) as (Ex & Ey & Et & _).
      set (sn := time_loop logf c n s) in *.
      assert (forall a b, a <= NX c + 1 -> b <= NY c + 1 ->
                same_value (rd2 (apply_boundaries c (u sn)) a b) k) as B.
      { intros a b Ha Hb.
        rewrite (apply_boundaries_spec c _ a b (decl_u _ _ Dn)) by lia.
        repeat case_decide; try (left; assumption).
        apply IH; lia. }
      destruct (step_cells logf c sn i j Dn) as [Hd Hu]; [lia|lia|].
      rewrite Hu. destruct (decide _) as [In|Out]; [|apply B; lia].
      rewrite Hd. unfold upwind. rewrite Ex, Ey, Et.
      eapply same_value_trans; [|apply (B i j); lia].
      apply (uniform_cell c _ _ _ _ k); try assumption; try (apply B; lia).
      apply Fv. lia. }
  intros i j Hi Hj. specialize (Inv i j Hi Hj). split.
  - apply same_value_eq; [exact Inv|]. destruct k; try discriminate; reflexivity.
  - intros Zk. destruct Inv as [E|[_ Zk']]; [exact E|congruence].
Qed.

Lemma uniform_field_is_kept_witness :
  rd2 (u (time_loop logf_tangent flat_config 2 flat_vars)) 1 2 = flit 10 1.
Proof.
  refine (proj2 (uniform_field_is_kept logf_tangent flat_config flat_vars (flit 10 1)
                   _ eq_refl eq_refl eq_refl eq_refl eq_refl _ eq_refl _
                   eq_refl eq_refl eq_refl eq_refl eq_refl 2 1 2 _ _) eq_refl).
  - split; try reflexivity; (split; [reflexivity|]); repeat constructor.
  - intros i j Hi Hj. simpl in Hi, Hj.
    assert (i = 0 \/ i = 1 \/ i = 2 \/ i = 3) as [->|[->|[->| ->]]] by lia;
      (assert (j = 0 \/ j = 1 \/ j = 2 \/ j = 3) as [->|[->|[->| ->]]] by lia);
      reflexivity.
  - intros j Hj. simpl in Hj.
    assert (j = 1 \/ j = 2) as [-> | ->] by lia; reflexivity.
  - simpl. lia.
  - simpl. lia.
Defined.

(** ** Rows below the threshold *)

(** Under the boundary values the rows [0..J] keep their values when the
    rows [1..J] are not above the threshold and [vely] is zero. *)
Lemma frozen_invariant (logf : float -> float) (c : Config) (s : Vars) (J : nat) :
  declared c s -> is_zero (vely c) = true -> J <= NY c ->
  (forall j, 1 <= j <= J ->
     F32.gt (F32.mul (idx j) (dy s)) (F32.of_int 1) = false) ->
  is_zero (dx s) = false -> is_nan (dx s) = false ->
  is_zero (dy s) = false -> is_nan (dy s) = false ->
  is_finite (dt s) = true ->
  (forall i j, 1 <= i <= NX c -> 1 <= j <= J ->
     is_finite (F32.sub (rd2 (apply_boundaries c (u s)) i j)
                        (rd2 (apply_boundaries c (u s)) (i - 1) j)) = true /\
     is_finite (F32.sub (rd2 (apply_boundaries c (u s)) i j)
                        (rd2 (apply_boundaries c (u s)) i (j - 1))) = true) ->
  forall n i j, i < NX c + 2 -> j <= J ->
    same_value (rd2 (apply_boundaries c (u (time_loop logf c n s))) i j)
               (rd2 (apply_boundaries c (u s)) i j).
Proof.
  intros D Hw HJ Hrow Zx Nx Zy Ny Ft Hfin n.
  induction n as [|n IH]; intros i j Hi Hj.
  - apply same_value_refl.
  - rewrite time_loop_S.
    pose proof (declared_time_loop logf c n s D) as Dn.
    destruct (time_loop_scalars logf c n s) as (Ex & Ey & Et & _).
    set (sn := time_loop logf c n s) in *.
    pose proof (declared_step logf c sn Dn) as Dn'.
    rewrite (apply_boundaries_spec c (u (step logf c sn)) i j (decl_u _ _ Dn'))
      by lia.
    rewrite (apply_boundaries_spec c (u s) i j (decl_u _ _ D)) by lia.
    repeat case_decide; try apply same_value_refl.
    destruct (step_cells logf c sn i j Dn) as [Hd Hu]; [lia|lia|].
    destruct (decide _) as [_|N]; [|lia].
    rewrite Hu, Hd, Ex, Ey, Et. unfold upwind.
    assert (same_value (rd2 (apply_boundaries c (u sn)) i j) (rd2 (u s) i j)) as Hc.
    { specialize (IH i j Hi Hj).
      rewrite (apply_boundaries_spec c (u s) i j (decl_u _ _ D)) in IH by lia.
      repeat case_decide; try lia. exact IH. }
    refine (same_value_trans _ _ _ _ Hc).
    destruct (Hfin i j) as [Fl Fd]; [lia|lia|].
    apply still_cell; try assumption.
    + unfold streamwiseVelocity. rewrite Hrow by lia. reflexivity.
    + rewrite <- Fl. apply is_finite_sub_same_value; apply IH; lia.
    + rewrite <- Fd. apply is_finite_sub_same_value; apply IH; lia.
Qed.

(** X10.  The branch [y > 1.0] of LOOP 8 freezes the rows near the wall:
    if [vely] is zero and the rows [1..J] have [j * dy] not above [1.0],
    then after any number of steps every cell of these rows compares equal
    to its initial value, whatever [logf] returns and whatever happens in
    the rows above, provided [dx] and [dy] are neither zero nor NaN, [dt]
    is finite and the differences between neighbouring cells of these
    rows, taken under the boundary values, are finite. *)
Theorem rows_below_threshold_are_frozen (logf : float -> float) (c : Config)
    (s : Vars) (J : nat) :
  declared c s -> is_zero (vely c) = true -> J <= NY c ->
  (forall j, 1 <= j <= J ->
     F32.gt (F32.mul (idx j) (dy s)) (F32.of_int 1) = false) ->
  is_zero (dx s) = false -> is_nan (dx s) = false ->
  is_zero (dy s) = false -> is_nan (dy s) = false ->
  is_finite (dt s) = true ->
  (forall i j, 1 <= i <= NX c -> 1 <= j <= J ->
     is_finite (F32.sub (rd2 (apply_boundaries c (u s)) i j)
                        (rd2 (apply_boundaries c (u s)) (i - 1) j)) = true /\
     is_finite (F32.sub (rd2 (apply_boundaries c (u s)) i j)
                        (rd2 (apply_boundaries c (u s)) i (j - 1))) = true) ->
  forall n i j, 1 <= i <= NX c -> 1 <= j <= J ->
    F32.eq (rd2 (u (time_loop logf c n s)) i j) (rd2 (u s) i j) = true /\
    same_value (rd2 (u (time_loop logf c n s)) i j) (rd2 (u s) i j).
Proof.
  intros D Hw HJ Hrow Zx Nx Zy Ny Ft Hfin n i j Hi Hj.
  pose proof (frozen_invariant logf c s J D Hw HJ Hrow Zx Nx Zy Ny Ft Hfin n i j
                ltac:(lia) ltac:(lia)) as H.
  pose proof (declared_time_loop logf c n s D) as Dn.
  rewrite (apply_boundaries_spec c _ i j (decl_u _ _ Dn)) in H by lia.
  rewrite (apply_boundaries_spec c _ i j (decl_u _ _ D)) in H by lia.
  repeat case_decide; try lia.
  split; [|exact H].
  apply same_value_eq; [exact H|].
  destruct (Hfin i j Hi Hj) as [Fl _].
  apply is_finite_sub in Fl as [Fa _].
  rewrite (apply_boundaries_spec c _ i j (decl_u _ _ D)) in Fa by lia.
  repeat case_decide; try lia.
  destruct (rd2 (u s) i j); try discriminate; reflexivity.
Qed.

Lemma declared_shear : declared shear_config shear_vars.
Proof.
  split; try reflexivity; (split; [reflexivity|]); repeat constructor.
Qed.

Lemma rows_below_threshold_are_frozen_witness :
  F32.eq (rd2 (u (time_loop logf_tangent shear_config 2 shear_vars)) 1 2)
         (rd2 (u shear_vars) 1 2) = true /\
  rd2 (u (time_loop logf_tangent shear_config 2 shear_vars)) 1 3
    <> rd2 (u shear_vars) 1 3.
Proof.
  split; [|vm_compute; discriminate].
  refine (proj1 (rows_below_threshold_are_frozen logf_tangent shear_config shear_vars 2
                   declared_shear eq_refl _ _ eq_refl eq_refl eq_refl eq_refl eq_refl
                   _ 2 1 2 _ _)).
  - simpl. lia.
  - intros j Hj. assert (j = 1 \/ j = 2) as [-> | ->] by lia; reflexivity.
  - intros i j Hi Hj. simpl in Hi.
    assert (i = 1 \/ i = 2) as [-> | ->] by lia;
      (assert (j = 1 \/ j = 2) as [-> | ->] by lia); split; reflexivity.
  - simpl. lia.
  - lia.
Defined.

(** ** The averages and the ghost cells *)

Lemma for_loop_first {A : Type} lo hi (b : nat -> A -> A) (s : A) :
  lo < hi -> for_loop lo hi b s = for_loop (S lo) hi b (b lo s).
Proof.
  intros H. unfold for_loop.
  replace (hi - lo) with (S (hi - S lo)) by lia. reflexivity.
Qed.

Lemma add_zero_any prec emax (a z : spec_float) :
  is_zero z = true -> same_value (SFadd prec emax a z) a.
Proof.
  intros Z. destruct a as [sa|sa| |sa ma ea] eqn:E.
  - right. destruct z as [sz| | |]; try discriminate. destruct sa, sz; split; reflexivity.
  - left. destruct z; try discriminate. reflexivity.
  - left. destruct z; try discriminate. reflexivity.
  - rewrite <- E. apply add_zero_r; [rewrite E; reflexivity|exact Z].
Qed.

Lemma zero_add_zero (z : float) :
  is_zero z = true -> F32.add (F32.of_int 0) z = F32.of_int 0.
Proof. destruct z as [[]| | |]; try discriminate; reflexivity. Qed.

Lemma div_same_value prec emax (a b d : spec_float) :
  same_value a b -> same_value (SFdiv prec emax a d) (SFdiv prec emax b d).
Proof.
  intros [->|[Za Zb]]; [left; reflexivity|].
  destruct a as [sa| | |]; try discriminate.
  destruct b as [sb| | |]; try discriminate.
  destruct d as [sd|sd| |sd md ed]; simpl.
  - left; reflexivity.
  - right; split; reflexivity.
  - left; reflexivity.
  - right; split; reflexivity.
Qed.

(** LOOP 11 adds the two ghost cells of the row to the sum; when both are
    zeros the result is the sum of the [NY] cells of the domain. *)
Lemma yAvg_ghost_zeros c (g : grid) i :
  is_zero (rd2 g i 0) = true -> is_zero (rd2 g i (NY c + 1)) = true ->
  same_value (yAvg c g i)
    (F32.div
       (for_loop 1 (NY c + 1) (fun j acc => F32.add acc (rd2 g i j)) (F32.of_int 0))
       (idx (NY c))).
Proof.
  intros Z0 Z1. unfold yAvg. cbv zeta.
  apply div_same_value.
  replace (NY c + 2) with (S (NY c + 1)) by lia.
  rewrite for_loop_snoc by lia.
  rewrite for_loop_first by lia.
  rewrite zero_add_zero by exact Z0.
  apply add_zero_any. exact Z1.
Qed.

(** X11.  LOOP 11 sums a row over its ghost cells too, but when the lower
    and upper boundary values are zeros and at least one time step is
    taken, row [i] of the file of averages holds [x[i]] and the mean over
    the [NY] points of the domain, [(u[i][1] + ... + u[i][NY]) / NY]: the
    same value, or a zero where the mean is a zero of the other sign.  So
    the two compare equal ([==]) whenever the mean is not NaN, and the
    average is NaN exactly when the mean is. *)
Theorem average_is_interior_mean (log : double -> double) (logf : float -> float)
    (exp : double -> double) (c : Config) (s : Vars) :
  declared c s -> 1 <= nsteps c ->
  is_zero (bval_lower c) = true -> is_zero (bval_upper c) = true ->
  forall i, i < NX c + 2 ->
    let mean :=
      F32.div
        (for_loop 1 (NY c + 1)
           (fun j acc => F32.add acc (rd2 (u (fst (main log logf exp c s))) i j))
           (F32.of_int 0))
        (idx (NY c)) in
    exists a,
      average_dat (snd (main log logf exp c s)) !! i
        = Some (rd (x (fst (main log logf exp c s))) i, a) /\
      same_value a mean /\
      (is_nan mean = false -> F32.eq a mean = true) /\
      is_nan a = is_nan mean.
Proof.
  intros D Hn Zl Zu i Hi mean. subst mean. simpl.
  destruct (nsteps c) as [|n]; [lia|].
  pose proof (declared_initialise log exp c s D) as D0.
  set (s0 := initialise log exp c s) in *.
  pose proof (declared_time_loop logf c n s0 D0) as Dn.
  exists (yAvg c (u (time_loop logf c (S n) s0)) i).
  assert (same_value (yAvg c (u (time_loop logf c (S n) s0)) i)
            (F32.div
               (for_loop 1 (NY c + 1)
                  (fun j acc => F32.add acc (rd2 (u (time_loop logf c (S n) s0)) i j))
                  (F32.of_int 0))
               (idx (NY c)))) as Same.
  { apply yAvg_ghost_zeros; rewrite time_loop_S;
      rewrite step_ghost_cells by (try assumption; lia);
      rewrite (apply_boundaries_spec c _ _ _ (decl_u _ _ Dn)) by lia;
      repeat case_decide; try lia; assumption. }
  split; [|split; [exact Same|split]].
  - rewrite averages_eq, list_lookup_fmap, lookup_seq_lt by assumption.
    reflexivity.
  - intros N. apply same_value_eq; assumption.
  - destruct Same as [->|[Za Zm]]; [reflexivity|].
    destruct (yAvg _ _ _); try discriminate.
    destruct (F32.div _ _); try discriminate. reflexivity.
Qed.

Lemma average_is_interior_mean_witness :
  exists a,
    average_dat (snd (main log_tangent logf_tangent exp_tangent
                        gauss_config (blank_vars gauss_config))) !! 1
      = Some (rd (x (fst (main log_tangent logf_tangent exp_tangent
                            gauss_config (blank_vars gauss_config)))) 1, a) /\
    F32.eq a
      (F32.div
         (for_loop 1 (NY gauss_config + 1)
            (fun j acc =>
               F32.add acc
                 (rd2 (u (fst (main log_tangent logf_tangent exp_tangent
                                 gauss_config (blank_vars gauss_config)))) 1 j))
            (F32.of_int 0))
         (idx (NY gauss_config))) = true.
Proof.
  destruct (average_is_interior_mean log_tangent logf_tangent exp_tangent
              gauss_config (blank_vars gauss_config)
              (declared_blank gauss_config) ltac:(simpl; lia) eq_refl eq_refl
              1 ltac:(simpl; lia)) as (a & E & _ & H & _).
  exists a. split; [exact E|]. apply H. vm_compute. reflexivity.
Defined.

(** ** Iteration order of the parallel loops *)

Lemma in_order_perm {I A : Type} `{EqDecision I} (P : A -> Prop) (Q : I -> Prop)
    (body : I -> A -> A) :
  (forall i s, Q i -> P s -> P (body i s)) ->
  (forall i j s, Q i -> Q j -> i <> j -> P s ->
     body i (body j s) = body j (body i s)) ->
  forall js js', Permutation js js' -> Forall Q js ->
  forall s, P s -> in_order js body s = in_order js' body s.
Proof.
  intros Hp Hc js js' Hperm.
  induction Hperm as [|x l l' _ IH|x y l|l l' l'' H1 IH1 H2 IH2]; intros Hq s Hs.
  - reflexivity.
  - apply Forall_cons in Hq as [Qx Ql]. apply IH; [assumption|].
    apply Hp; assumption.
  - apply Forall_cons in Hq as [Qy Hq]. apply Forall_cons in Hq as [Qx _].
    unfold in_order. simpl. destruct (decide (x = y)) as [->|N]; [reflexivity|].
    rewrite (Hc x y s) by assumption. reflexivity.
  - rewrite IH1 by assumption. apply IH2; [|assumption].
    eapply Permutation_Forall; eassumption.
Qed.

Lemma in_order_seq {A : Type} lo hi (body : nat -> A -> A) (s : A) :
  in_order (seq lo (hi - lo)) body s = for_loop lo hi body s.
Proof. reflexivity. Qed.

Lemma in_order_iteration_space {A : Type} li hi lj hj (body : nat -> nat -> A -> A)
    (s : A) :
  in_order (iteration_space li hi lj hj) (fun '(i, j) => body i j) s
  = for_loop li hi (fun i s => for_loop lj hj (fun j s => body i j s) s) s.
Proof.
  unfold iteration_space, for_loop, in_order.
  generalize (seq li (hi - li)) s. intros ks.
  induction ks as [|i ks IH]; intros t; simpl; [reflexivity|].
  rewrite fold_left_app, IH. f_equal.
  generalize (seq lj (hj - lj)) t. intros js.
  induction js as [|j js IHj]; intros t'; simpl; [reflexivity|apply IHj].
Qed.

Lemma iteration_space_range li hi lj hj :
  Forall (fun '(i, j) => li <= i < hi /\ lj <= j < hj) (iteration_space li hi lj hj).
Proof.
  apply List.Forall_forall. intros [i j] H.
  apply in_prod_iff in H as [Hi Hj].
  apply in_seq in Hi, Hj. lia.
Qed.

(** Updates of two different cells can be exchanged. *)
Lemma cell_updates_commute nx ny (f : nat -> nat -> float -> float) (g : grid)
    i j i' j' :
  grid_shape nx ny g -> i < nx + 2 -> j < ny + 2 -> i' < nx + 2 -> j' < ny + 2 ->
  (i, j) <> (i', j') ->
  let upd := fun i j (g : grid) => wr2 g i j (f i j (rd2 g i j)) in
  upd i j (upd i' j' g) = upd i' j' (upd i j g).
Proof.
  intros Sh Hi Hj Hi' Hj' N. cbv zeta.
  apply (grid_ext nx ny); try (repeat apply grid_shape_wr2; assumption).
  intros a b Ha Hb.
  rewrite !(rd2_wr2 nx ny) by (try apply grid_shape_wr2; assumption).
  repeat case_decide; try reflexivity; destruct_and?; subst; congruence.
Qed.

Lemma cells_in_any_order nx ny li hi lj hj (f : nat -> nat -> float -> float)
    (g : grid) (js : list (nat * nat)) :
  grid_shape nx ny g -> hi <= nx + 2 -> hj <= ny + 2 ->
  Permutation js (iteration_space li hi lj hj) ->
  in_order js (fun '(i, j) g => wr2 g i j (f i j (rd2 g i j))) g
  = for_loop li hi (fun i g =>
      for_loop lj hj (fun j g => wr2 g i j (f i j (rd2 g i j))) g) g.
Proof.
  intros Sh Hi Hj Hp.
  rewrite <- (in_order_iteration_space li hi lj hj
                (fun i j g => wr2 g i j (f i j (rd2 g i j)))).
  apply (in_order_perm (grid_shape nx ny)
           (fun '(i, j) => li <= i < hi /\ lj <= j < hj)).
  - intros [i j] s _ Hs. apply grid_shape_wr2. exact Hs.
  - intros [i j] [i' j'] s Q Q' N Hs.
    apply (cell_updates_commute nx ny f s i j i' j'); try assumption; lia.
  - exact Hp.
  - eapply Permutation_Forall; [symmetry; exact Hp|]. apply iteration_space_range.
  - exact Sh.
Qed.

(** X12.  LOOP 8 and LOOP 9 ([parallel for collapse(2)]) do not depend on
    the order of their iterations: run over any permutation of the points
    [(i, j)] of the domain, each leaves the same array as the sequential
    nest. *)
Theorem compute_loops_any_order (logf : float -> float) (c : Config)
    (dx dy dt : float) (g d : grid) (js : list (nat * nat)) :
  grid_shape (NX c) (NY c) g -> grid_shape (NX c) (NY c) d ->
  Permutation js (iteration_space 1 (NX c + 1) 1 (NY c + 1)) ->
  in_order js (fun '(i, j) d => wr2 d i j (dudt_cell logf c dx dy g i j)) d
    = loop8 logf c dx dy g d /\
  in_order js
      (fun '(i, j) g => wr2 g i j (F32.add (rd2 g i j) (F32.mul (rd2 d i j) dt))) g
    = loop9 c dt d g.
Proof.
  intros Sg Sd Hp. split.
  - apply (cells_in_any_order (NX c) (NY c) 1 (NX c + 1) 1 (NY c + 1)
             (fun i j _ => dudt_cell logf c dx dy g i j) d js Sd); [lia|lia|exact Hp].
  - apply (cells_in_any_order (NX c) (NY c) 1 (NX c + 1) 1 (NY c + 1)
             (fun i j v => F32.add v (F32.mul (rd2 d i j) dt)) g js Sg);
      [lia|lia|exact Hp].
Qed.

(** The two writes of an iteration of LOOP 6 or LOOP 7 and those of
    another iteration can be exchanged. *)
Lemma column_writes_commute nx ny (g : grid) i i' j j' a b :
  grid_shape nx ny g -> i < nx + 2 -> i' < nx + 2 -> j < ny + 2 -> j' < ny + 2 ->
  j <> j' ->
  wr2 (wr2 (wr2 (wr2 g i j' a) i' j' b) i j a) i' j b
  = wr2 (wr2 (wr2 (wr2 g i j a) i' j b) i j' a) i' j' b.
Proof.
  intros Sh Hi Hi' Hj Hj' N.
  apply (grid_ext nx ny); try (repeat apply grid_shape_wr2; assumption).
  intros p q Hp Hq.
  rewrite !(rd2_wr2 nx ny) by (repeat apply grid_shape_wr2; assumption).
  repeat case_decide; try reflexivity; destruct_and?; subst; congruence.
Qed.

Lemma row_writes_commute nx ny (g : grid) i i' j j' a b :
  grid_shape nx ny g -> i < nx + 2 -> i' < nx + 2 -> j < ny + 2 -> j' < ny + 2 ->
  i <> i' ->
  wr2 (wr2 (wr2 (wr2 g i' j a) i' j' b) i j a) i j' b
  = wr2 (wr2 (wr2 (wr2 g i j a) i j' b) i' j a) i' j' b.
Proof.
  intros Sh Hi Hi' Hj Hj' N.
  apply (grid_ext nx ny); try (repeat apply grid_shape_wr2; assumption).
  intros p q Hp Hq.
  rewrite !(rd2_wr2 nx ny) by (repeat apply grid_shape_wr2; assumption).
  repeat case_decide; try reflexivity; destruct_and?; subst; congruence.
Qed.

(** X13.  LOOP 6 and LOOP 7 ([parallel for]) do not depend on the order
    of their iterations: run over any permutation of their index range,
    each leaves the same [u] as the sequential loop. *)
Theorem boundary_loops_any_order (c : Config) (g : grid) (js ks : list nat) :
  grid_shape (NX c) (NY c) g ->
  Permutation js (seq 0 (NY c + 2)) -> Permutation ks (seq 0 (NX c + 2)) ->
  in_order js
      (fun j g => wr2 (wr2 g 0 j (bval_left c)) (NX c + 1) j (bval_right c)) g
    = loop6 c g /\
  in_order ks
      (fun i g => wr2 (wr2 g i 0 (bval_lower c)) i (NY c + 1) (bval_upper c)) g
    = loop7 c g.
Proof.
  intros Sh Hj Hk. split.
  - unfold loop6. rewrite <- in_order_seq, Nat.sub_0_r.
    apply (in_order_perm (grid_shape (NX c) (NY c)) (fun j => j < NY c + 2)).
    + intros j s _ Hs. repeat apply grid_shape_wr2. exact Hs.
    + intros j j' s Q Q' N Hs.
      apply (column_writes_commute (NX c) (NY c)); try assumption; lia.
    + exact Hj.
    + eapply Permutation_Forall; [symmetry; exact Hj|].
      apply List.Forall_forall. intros j H. apply in_seq in H. lia.
    + exact Sh.
  - unfold loop7. rewrite <- in_order_seq, Nat.sub_0_r.
    apply (in_order_perm (grid_shape (NX c) (NY c)) (fun i => i < NX c + 2)).
    + intros i s _ Hs. repeat apply grid_shape_wr2. exact Hs.
    + intros i i' s Q Q' N Hs.
      apply (row_writes_commute (NX c) (NY c)); try assumption; lia.
    + exact Hk.
    + eapply Permutation_Forall; [symmetry; exact Hk|].
      apply List.Forall_forall. intros i H. apply in_seq in H. lia.
    + exact Sh.
Qed.

(** X14.  The loops of the set-up, LOOP 1 and LOOP 2 ([parallel for]) and
    LOOP 3 ([parallel for collapse(2)]), do not depend on the order of
    their iterations. *)
Theorem setup_loops_any_order (exp : double -> double) (c : Config) (n : nat)
    (d : float) (a xs ys : array) (g : grid) (js : list nat)
    (ks : list (nat * nat)) :
  grid_shape (NX c) (NY c) g ->
  Permutation js (seq 0 (n + 2)) ->
  Permutation ks (iteration_space 0 (NX c + 2) 0 (NY c + 2)) ->
  in_order js (fun i a => wr a i (centre i d)) a = fill_axis n d a /\
  in_order ks (fun '(i, j) g => wr2 g i j (gaussian exp c (rd xs i) (rd ys j))) g
    = init_u exp c xs ys g.
Proof.
  intros Sh Hj Hk. split.
  - unfold fill_axis. rewrite <- in_order_seq, Nat.sub_0_r.
    apply (in_order_perm (fun _ => True) (fun _ => True)); try done.
    + intros i j s _ _ N _. unfold wr. apply list_insert_insert_ne. exact N.
    + apply List.Forall_forall. done.
  - apply (cells_in_any_order (NX c) (NY c) 0 (NX c + 2) 0 (NY c + 2)
             (fun i j _ => gaussian exp c (rd xs i) (rd ys j)) g ks Sh);
      [lia|lia|exact Hk].
Qed.

Lemma compute_loops_any_order_witness :
  in_order (rev (iteration_space 1 (NX demo_config + 1) 1 (NY demo_config + 1)))
      (fun '(i, j) d =>
         wr2 d i j
           (dudt_cell logf_tangent demo_config (dx demo_vars) (dy demo_vars)
              (u demo_vars) i j))
      (dudt demo_vars)
    = loop8 logf_tangent demo_config (dx demo_vars) (dy demo_vars) (u demo_vars)
        (dudt demo_vars).
Proof.
  apply (compute_loops_any_order logf_tangent demo_config (dx demo_vars)
           (dy demo_vars) (dt demo_vars) (u demo_vars) (dudt demo_vars)
           (rev (iteration_space 1 (NX demo_config + 1) 1 (NY demo_config + 1)))
           (decl_u _ _ declared_demo) (decl_dudt _ _ declared_demo)).
  symmetry. apply Permutation_rev.
Defined.

Lemma boundary_loops_any_order_witness :
  in_order (rev (seq 0 (NY demo_config + 2)))
      (fun j g =>
         wr2 (wr2 g 0 j (bval_left demo_config)) (NX demo_config + 1) j
           (bval_right demo_config))
      (u demo_vars)
    = loop6 demo_config (u demo_vars).
Proof.
  apply (boundary_loops_any_order demo_config (u demo_vars)
           (rev (seq 0 (NY demo_config + 2))) (rev (seq 0 (NX demo_config + 2)))
           (decl_u _ _ declared_demo)).
  - symmetry. apply Permutation_rev.
  - symmetry. apply Permutation_rev.
Defined.

Lemma setup_loops_any_order_witness :
  in_order (rev (iteration_space 0 (NX demo_config + 2) 0 (NY demo_config + 2)))
      (fun '(i, j) g =>
         wr2 g i j
           (gaussian exp_tangent demo_config (rd (x demo_vars) i) (rd (y demo_vars) j)))
      (u demo_vars)
    = init_u exp_tangent demo_config (x demo_vars) (y demo_vars) (u demo_vars).
Proof.
  apply (setup_loops_any_order exp_tangent demo_config 2 (dx demo_vars)
           (x demo_vars) (x demo_vars) (y demo_vars) (u demo_vars)
           (rev (seq 0 (2 + 2)))
           (rev (iteration_space 0 (NX demo_config + 2) 0 (NY demo_config + 2)))
           (decl_u _ _ declared_demo)).
  - symmetry. apply Permutation_rev.
  - symmetry. apply Permutation_rev.
Defined.

(** ** Array bounds *)

Lemma for_loop_checked_snoc {A : Type} lo hi (b : nat -> A -> option A) (s : A) :
  lo <= hi -> for_loop_checked lo (S hi) b s = for_loop_checked lo hi b s ≫= b hi.
Proof.
  intros H. unfold for_loop_checked.
  replace (S hi - lo) with (S (hi - lo)) by lia.
  rewrite seq_S, fold_left_app. simpl.
  replace (lo + (hi - lo)) with hi by lia. reflexivity.
Qed.

Lemma for_loop_checked_ge {A : Type} lo hi (b : nat -> A -> option A) (s : A) :
  hi <= lo -> for_loop_checked lo hi b s = Some s.
Proof.
  intros H. unfold for_loop_checked. replace (hi - lo) with 0 by lia. reflexivity.
Qed.

(** A checked loop whose accesses are all in bounds is the loop. *)
Lemma for_loop_checked_Some {A : Type} (P : A -> Prop) lo hi
    (b : nat -> A -> option A) (b' : nat -> A -> A) (s : A) :
  P s ->
  (forall i t, lo <= i < hi -> P t -> b i t = Some (b' i t) /\ P (b' i t)) ->
  for_loop_checked lo hi b s = Some (for_loop lo hi b' s) /\
  P (for_loop lo hi b' s).
Proof.
  intros Hs. induction hi as [|h IH]; intros Hb.
  - rewrite for_loop_checked_ge, for_loop_ge by lia. split; [reflexivity|exact Hs].
  - destruct (le_lt_dec lo h) as [L|L].
    + rewrite for_loop_checked_snoc, for_loop_snoc by lia.
      destruct IH as [E Pt]; [intros; apply Hb; [lia|assumption]|].
      rewrite E. simpl. apply Hb; [lia|exact Pt].
    + rewrite for_loop_checked_ge, for_loop_ge by lia. split; [reflexivity|exact Hs].
Qed.

Lemma rd_checked_Some (a : array) i :
  i < length a -> rd_checked a i = Some (rd a i).
Proof.
  intros H. unfold rd_checked, rd.
  destruct (lookup_lt_is_Some_2 a i H) as [v ->]. reflexivity.
Qed.

Lemma wr_checked_Some (a : array) i v :
  i < length a -> wr_checked a i v = Some (wr a i v).
Proof. intros H. unfold wr_checked. destruct (decide _); [reflexivity|lia]. Qed.

Lemma rd2_checked_Some nx ny (g : grid) i j :
  grid_shape nx ny g -> i < nx + 2 -> j < ny + 2 ->
  rd2_checked g i j = Some (rd2 g i j).
Proof.
  intros [L R]%grid_shape_rows Hi Hj. unfold rd2_checked, rd2, row.
  destruct (lookup_lt_is_Some_2 g i) as [r E]; [lia|].
  rewrite E. simpl. apply rd_checked_Some. rewrite (R _ _ E). exact Hj.
Qed.

Lemma wr2_checked_Some nx ny (g : grid) i j v :
  grid_shape nx ny g -> i < nx + 2 -> j < ny + 2 ->
  wr2_checked g i j v = Some (wr2 g i j v) /\ grid_shape nx ny (wr2 g i j v).
Proof.
  intros Sh Hi Hj. split; [|apply grid_shape_wr2; exact Sh].
  apply grid_shape_rows in Sh as [L R]. unfold wr2_checked, wr2, row.
  destruct (lookup_lt_is_Some_2 g i) as [r E]; [lia|].
  rewrite E. simpl. rewrite wr_checked_Some by (rewrite (R _ _ E); exact Hj).
  reflexivity.
Qed.

Lemma dudt_cell_value logf c dx dy (g : grid) i j :
  dudt_cell logf c dx dy g i j
  = dudt_value logf c dx dy j (rd2 g i j) (rd2 g (i - 1) j) (rd2 g i (j - 1)).
Proof. reflexivity. Qed.

(** An axis loop stays inside its array exactly when the array has the
    [n + 2] elements the loop writes. *)
Lemma fill_axis_checked_eq n d (a : array) :
  fill_axis_checked n d a
  = if decide (n + 2 <= length a) then Some (fill_axis n d a) else None.
Proof.
  unfold fill_axis_checked, fill_axis. generalize (n + 2). intros k.
  assert (forall k, length (for_loop 0 k (fun i a => wr a i (centre i d)) a)
                    = length a) as Len.
  { intros m. apply (for_loop_inv (fun _ t => length t = length a)); [lia|reflexivity|].
    intros i t _ Ht. unfold wr. rewrite length_insert. exact Ht. }
  induction k as [|k IH].
  - rewrite for_loop_checked_ge, for_loop_ge by lia.
    destruct (decide _); [reflexivity|lia].
  - rewrite for_loop_checked_snoc, for_loop_snoc, IH by lia.
    destruct (decide (k <= length a)) as [K|K]; simpl.
    + unfold wr_checked. rewrite Len.
      repeat destruct (decide _); try lia; reflexivity.
    + destruct (decide _); [lia|reflexivity].
Qed.

Section CheckedLoops.
Variable log : double -> double.
Variable logf : float -> float.
Variable exp : double -> double.
Variable c : Config.

Lemma init_u_checked_Some (xs ys : array) (g : grid) :
  grid_shape (NX c) (NY c) g -> NX c + 2 <= length xs -> NY c + 2 <= length ys ->
  init_u_checked exp c xs ys g = Some (init_u exp c xs ys g).
Proof.
  intros Sh Hx Hy. unfold init_u_checked, init_u.
  apply (for_loop_checked_Some (grid_shape (NX c) (NY c))); [exact Sh|].
  intros i t Hi Ht.
  apply (for_loop_checked_Some (grid_shape (NX c) (NY c))); [exact Ht|].
  intros j t' Hj Ht'.
  rewrite !rd_checked_Some by lia. simpl.
  apply (wr2_checked_Some (NX c) (NY c)); [assumption|lia|lia].
Qed.

Lemma loop6_checked_Some (g : grid) :
  grid_shape (NX c) (NY c) g -> loop6_checked c g = Some (loop6 c g).
Proof.
  intros Sh. unfold loop6_checked, loop6.
  apply (for_loop_checked_Some (grid_shape (NX c) (NY c))); [exact Sh|].
  intros j t Hj Ht.
  destruct (wr2_checked_Some (NX c) (NY c) t 0 j (bval_left c) Ht) as [E Sh'];
    [lia|lia|].
  rewrite E. simpl.
  apply (wr2_checked_Some (NX c) (NY c)); [assumption|lia|lia].
Qed.

Lemma loop7_checked_Some (g : grid) :
  grid_shape (NX c) (NY c) g -> loop7_checked c g = Some (loop7 c g).
Proof.
  intros Sh. unfold loop7_checked, loop7.
  apply (for_loop_checked_Some (grid_shape (NX c) (NY c))); [exact Sh|].
  intros i t Hi Ht.
  destruct (wr2_checked_Some (NX c) (NY c) t i 0 (bval_lower c) Ht) as [E Sh'];
    [lia|lia|].
  rewrite E. simpl.
  apply (wr2_checked_Some (NX c) (NY c)); [assumption|lia|lia].
Qed.

Lemma loop8_checked_Some dx dy (g d : grid) :
  grid_shape (NX c) (NY c) g -> grid_shape (NX c) (NY c) d ->
  loop8_checked logf c dx dy g d = Some (loop8 logf c dx dy g d).
Proof.
  intros Sg Sd. unfold loop8_checked, loop8.
  apply (for_loop_checked_Some (grid_shape (NX c) (NY c))); [exact Sd|].
  intros i t Hi Ht.
  apply (for_loop_checked_Some (grid_shape (NX c) (NY c))); [exact Ht|].
  intros j t' Hj Ht'.
  rewrite !(rd2_checked_Some (NX c) (NY c)) by (try assumption; lia). simpl.
  rewrite dudt_cell_value.
  apply (wr2_checked_Some (NX c) (NY c)); [assumption|lia|lia].
Qed.

Lemma loop9_checked_Some dt (d g : grid) :
  grid_shape (NX c) (NY c) g -> grid_shape (NX c) (NY c) d ->
  loop9_checked c dt d g = Some (loop9 c dt d g).
Proof.
  intros Sg Sd. unfold loop9_checked, loop9.
  apply (for_loop_checked_Some (grid_shape (NX c) (NY c))); [exact Sg|].
  intros i t Hi Ht.
  apply (for_loop_checked_Some (grid_shape (NX c) (NY c))); [exact Ht|].
  intros j t' Hj Ht'.
  rewrite !(rd2_checked_Some (NX c) (NY c)) by (try assumption; lia). simpl.
  apply (wr2_checked_Some (NX c) (NY c)); [assumption|lia|lia].
Qed.

Lemma step_checked_Some (s : Vars) :
  declared c s -> step_checked logf c s = Some (step logf c s).
Proof.
  intros [Hx Hy Hu Hd]. unfold step_checked, step, apply_boundaries. cbv zeta.
  destruct (loop6_spec c (u s) Hu) as [S6 _].
  destruct (loop7_spec c _ S6) as [S7 _].
  rewrite (loop6_checked_Some _ Hu). simpl.
  rewrite (loop7_checked_Some _ S6). simpl.
  rewrite (loop8_checked_Some _ _ _ _ S7 Hd). simpl.
  rewrite loop9_checked_Some; [reflexivity|exact S7|].
  rewrite loop8_derivative. apply grid_shape_map_cells, Hd.
Qed.

Lemma time_loop_checked_Some n (s : Vars) :
  declared c s -> time_loop_checked logf c n s = Some (time_loop logf c n s).
Proof.
  intros D. unfold time_loop_checked, time_loop.
  apply (for_loop_checked_Some (declared c)); [exact D|].
  intros _ t _ Dt. split; [apply step_checked_Some, Dt|apply declared_step, Dt].
Qed.

Lemma snapshot_checked_Some (s : Vars) :
  NX c + 2 <= length (x s) -> NY c + 2 <= length (y s) ->
  grid_shape (NX c) (NY c) (u s) ->
  snapshot_checked c s = Some (snapshot c s).
Proof.
  intros Hx Hy Hu. unfold snapshot_checked, snapshot.
  apply (for_loop_checked_Some (fun _ => True)); [exact I|].
  intros i t Hi _.
  apply (for_loop_checked_Some (fun _ => True)); [exact I|].
  intros j t' Hj _.
  rewrite !rd_checked_Some by lia.
  rewrite (rd2_checked_Some (NX c) (NY c)) by (try assumption; lia).
  split; [reflexivity|exact I].
Qed.

Lemma yAvg_checked_Some (g : grid) i :
  grid_shape (NX c) (NY c) g -> i < NX c + 2 ->
  yAvg_checked c g i = Some (yAvg c g i).
Proof.
  intros Sh Hi. unfold yAvg_checked, yAvg. cbv zeta.
  destruct (for_loop_checked_Some (fun _ => True) 0 (NY c + 2)
              (fun j acc => v ← rd2_checked g i j; Some (F32.add acc v))
              (fun j acc => F32.add acc (rd2 g i j)) (F32.of_int 0) I) as [E _].
  { intros j t Hj _.
    rewrite (rd2_checked_Some (NX c) (NY c)) by (try assumption; lia).
    split; [reflexivity|exact I]. }
  rewrite E. reflexivity.
Qed.

Lemma averages_checked_Some (s : Vars) :
  NX c + 2 <= length (x s) -> grid_shape (NX c) (NY c) (u s) ->
  averages_checked c s = Some (averages c s).
Proof.
  intros Hx Hu. unfold averages_checked, averages.
  apply (for_loop_checked_Some (fun _ => True)); [exact I|].
  intros i t Hi _.
  rewrite yAvg_checked_Some by (try assumption; lia). simpl.
  rewrite rd_checked_Some by lia.
  split; [reflexivity|exact I].
Qed.

Lemma initialise_checked_eq (s : Vars) :
  declared c s ->
  initialise_checked log exp c s
  = if decide (NY c <= NX c) then Some (initialise log exp c s) else None.
Proof.
  intros [Hx Hy Hu Hd]. unfold initialise_checked, initialise. cbv zeta.
  rewrite !fill_axis_checked_eq. simpl.
  destruct (decide (NX c + 2 <= length (x s))); [|lia]. simpl.
  destruct (decide (NY c + 2 <= length (y s))) as [Y|Y];
    destruct (decide (NY c <= NX c)); try lia; simpl; [|reflexivity].
  rewrite init_u_checked_Some; [reflexivity|exact Hu| |];
    rewrite fill_axis_length; lia.
Qed.
End CheckedLoops.

(** X15.  [main] stays inside its arrays exactly when [NY <= NX]: [y] is
    declared with [NX+2] elements and LOOP 2 writes [NY+2].  With
    [NY <= NX] every access of the run is in bounds and the checked
    program returns what [main] returns;  with [NY > NX] an access is out
    of bounds. *)
Theorem main_in_bounds_iff (log : double -> double) (logf : float -> float)
    (exp : double -> double) (c : Config) (s : Vars) :
  declared c s ->
  main_checked log logf exp c s
  = if decide (NY c <= NX c) then Some (main log logf exp c s) else None.
Proof.
  intros D. unfold main_checked, main. cbv zeta.
  rewrite (initialise_checked_eq log exp c s D).
  destruct (decide (NY c <= NX c)) as [L|L]; [|reflexivity]. simpl.
  pose proof (declared_initialise log exp c s D) as D0.
  set (s0 := initialise log exp c s) in *.
  pose proof (declared_time_loop logf c (nsteps c) s0 D0) as D1.
  rewrite (snapshot_checked_Some c s0);
    [|rewrite (decl_x _ _ D0); lia|rewrite (decl_y _ _ D0); lia|apply D0].
  simpl. rewrite (time_loop_checked_Some logf c _ s0 D0). simpl.
  rewrite (snapshot_checked_Some c _);
    [|rewrite (decl_x _ _ D1); lia|rewrite (decl_y _ _ D1); lia|apply D1].
  simpl. rewrite (averages_checked_Some c _);
    [|rewrite (decl_x _ _ D1); lia|apply D1].
  reflexivity.
Qed.

Lemma main_in_bounds_iff_witness :
  main_checked log_tangent logf_tangent exp_tangent shear_config shear_vars = None /\
  main_checked log_tangent logf_tangent exp_tangent demo_config demo_vars
    = Some (main log_tangent logf_tangent exp_tangent demo_config demo_vars).
Proof.
  split.
  - exact (main_in_bounds_iff log_tangent logf_tangent exp_tangent shear_config
             shear_vars declared_shear).
  - exact (main_in_bounds_iff log_tangent logf_tangent exp_tangent demo_config
             demo_vars declared_demo).
Defined.

(** X16.  The time loop never leaves the arrays, whatever [NX] and [NY]
    are: LOOP 6 to LOOP 9 index [u] and [dudt] only, inside their declared
    [(NX+2) x (NY+2)] cells ([i - 1] and [j - 1] included), for any number
    of steps. *)
Theorem time_loop_in_bounds (logf : float -> float) (c : Config) (s : Vars)
    (n : nat) :
  declared c s ->
  time_loop_checked logf c n s = Some (time_loop logf c n s) /\
  declared c (time_loop logf c n s).
Proof.
  intros D. split; [apply time_loop_checked_Some, D|apply declared_time_loop, D].
Qed.

Lemma time_loop_in_bounds_witness :
  time_loop_checked logf_tangent shear_config 2 shear_vars
  = Some (time_loop logf_tangent shear_config 2 shear_vars).
Proof.
  apply (time_loop_in_bounds logf_tangent shear_config shear_vars 2 declared_shear).
Defined.

(** ** The constant [velx] *)

(** X17.  The constant [velx] reaches one line of the report, "Distance
    advected x", and nothing else: with any other value for it, the time
    step, the final variables and the three files are the same, and so is
    every other line of the report.  The velocity of the scheme is the
    profile of LOOP 8. *)
Theorem velx_only_in_report (log : double -> double) (logf : float -> float)
    (exp : double -> double) (c : Config) (s : Vars) (v : float) :
  main log logf exp (with_velx v c) s = main log logf exp c s /\
  (forall k, k <> 6 ->
     console log (with_velx v c) s !! k = console log c s !! k) /\
  console log c s !! 6
    = Some (Pg (F64.of_float
                  (F32.mul (F32.mul (velx c) (dt (initialise log exp c s)))
                     (idx (nsteps c))))).
Proof.
  split; [reflexivity|split; [|reflexivity]].
  intros k Hk. unfold console, report.
  do 6 (destruct k as [|k]; [reflexivity|]).
  destruct k as [|k]; [congruence|]. reflexivity.
Qed.
